(** * Temporis: Presburger-constrained temporal reachability games

    A shallow embedding of the C++ sources of temporis:
    - [PresburgerTerm]            (src/src/presburger_term.cpp)
    - [PresburgerFormula]         (src/src/presburger_formula.cpp)
    - [GGGTemporalGameManager]    (src/src/ggg_temporal_graph.cpp)
    - [GGGReachabilityObjective]  (src/src/ggg_temporal_graph.cpp)
    - [ReachabilityObjective]     (src/src/reachability_objective.cpp)
    - the backwards attractor and the expansion solver
                                  (src/src/ggg_temporal_solver.cpp).

    C++ [int] values are modelled as [Z]: signed overflow is undefined
    behaviour in C++, and no input considered here comes near it.
    A [std::map<std::string,int>] is a [gmap string Z]; a [std::set<Vertex>]
    of boost [vecS] vertex descriptors is a [list nat] kept in the order the
    code enumerates vertices. *)

From stdpp Require Import base gmap list strings.
From Stdlib Require Import ZArith Lia Ascii.
From Stdlib Require String.

Open Scope Z_scope.
Set Warnings "-register-all".

(* ------------------------------------------------------------------ *)
(** ** PresburgerTerm *)

Record PresburgerTerm := mkTerm {
  coefficients_ : gmap string Z;   (* variable -> coefficient mapping *)
  constant_ : Z
}.

(** [PresburgerTerm(const std::string& var)] *)
Definition term_var (var : string) : PresburgerTerm :=
  mkTerm {[ var := 1 ]} 0.

(** [PresburgerTerm(const std::string& var, int coefficient)] *)
Definition term_var_coeff (var : string) (coefficient : Z) : PresburgerTerm :=
  mkTerm {[ var := coefficient ]} 0.

(** [PresburgerTerm(int val)] *)
Definition term_const (val : Z) : PresburgerTerm := mkTerm ∅ val.

(** [operator+]: copy [*this], add the constants, and for every entry of
    [other] do [result.coefficients_[var] += coeff]; [operator[]] inserts a
    missing key with value 0 first. *)
Definition term_plus (this other : PresburgerTerm) : PresburgerTerm :=
  mkTerm
    (map_fold (fun var coeff (acc : gmap string Z) =>
                 <[ var := default 0 (acc !! var) + coeff ]> acc)
              (coefficients_ this) (coefficients_ other))
    (constant_ this + constant_ other).

(** [operator*]: copy [*this], multiply the constant and every stored
    coefficient by [scalar]. *)
Definition term_mult (this : PresburgerTerm) (scalar : Z) : PresburgerTerm :=
  mkTerm ((fun coeff => coeff * scalar) <$> coefficients_ this)
         (constant_ this * scalar).

(** The representation invariant stated in the specification: no variable
    is mapped to coefficient zero. *)
Definition term_invariant (t : PresburgerTerm) : Prop :=
  forall var c, coefficients_ t !! var = Some c -> c <> 0.

(* ------------------------------------------------------------------ *)
(** ** PresburgerFormula *)

Inductive PresburgerFormula :=
| EQUAL (left_ right_ : PresburgerTerm)
| GREATEREQUAL (left_ right_ : PresburgerTerm)
| LESSEQUAL (left_ right_ : PresburgerTerm)
| GREATER (left_ right_ : PresburgerTerm)
| LESS (left_ right_ : PresburgerTerm)
| AND (children_ : list PresburgerFormula)
| OR (children_ : list PresburgerFormula)
| NOT (child : PresburgerFormula)
| EXISTS (existential_var_ : string) (child : PresburgerFormula)
| MODULUS (left_ : PresburgerTerm) (modulus_ remainder_ : Z).

(** The static factory [PresburgerFormula::modulus]: it stores [modulus]
    and [remainder] as given. *)
Definition modulus (expr : PresburgerTerm) (m r : Z) : PresburgerFormula :=
  MODULUS expr m r.

(** [PresburgerFormula::evaluate_term]: the constant plus, for every stored
    variable found in [values], [coeff * value]; unknown variables
    contribute nothing. *)
Definition evaluate_term (term : PresburgerTerm) (values : gmap string Z) : Z :=
  map_fold (fun var coeff result =>
              match values !! var with
              | Some v => result + coeff * v
              | None => result
              end)
           (constant_ term) (coefficients_ term).

(** The loop of the [EXISTS] case: [for (int val = 0; val <= 10; ++val)],
    written with the number of remaining iterations as fuel. *)
Fixpoint exists_loop (body : Z -> option bool) (fuel : nat) (val : Z)
  : option bool :=
  match fuel with
  | O => Some false
  | S fuel' =>
      match body val with
      | None => None
      | Some true => Some true
      | Some false => exists_loop body fuel' (val + 1)
      end
  end.

(** [X_MAX = 10]: the loop runs for [val = 0 .. 10]. *)
Definition X_MAX : Z := 10.

(** [PresburgerFormula::evaluate].  The C++ [%] on [int] truncates toward
    zero, which is [Z.rem]; [%] by zero is undefined behaviour in C++ and
    is modelled by [None] (evaluation goes wrong), and it propagates
    through every enclosing case. *)
Fixpoint evaluate (values : gmap string Z) (f : PresburgerFormula)
  : option bool :=
  match f with
  | EQUAL l r => Some (evaluate_term l values =? evaluate_term r values)
  | GREATEREQUAL l r => Some (evaluate_term r values <=? evaluate_term l values)
  | LESSEQUAL l r => Some (evaluate_term l values <=? evaluate_term r values)
  | GREATER l r => Some (evaluate_term r values <? evaluate_term l values)
  | LESS l r => Some (evaluate_term l values <? evaluate_term r values)
  | MODULUS t m r =>
      if m =? 0 then None
      else Some (Z.rem (evaluate_term t values) m =? r)
  | AND children =>
      (fix go (cs : list PresburgerFormula) : option bool :=
         match cs with
         | [] => Some true
         | c :: cs' =>
             match evaluate values c with
             | None => None
             | Some false => Some false
             | Some true => go cs'
             end
         end) children
  | OR children =>
      (fix go (cs : list PresburgerFormula) : option bool :=
         match cs with
         | [] => Some false
         | c :: cs' =>
             match evaluate values c with
             | None => None
             | Some true => Some true
             | Some false => go cs'
             end
         end) children
  | NOT c =>
      match evaluate values c with
      | None => None
      | Some b => Some (negb b)
      end
  | EXISTS x c =>
      exists_loop (fun val => evaluate (<[ x := val ]> values) c)
                  (S (Z.to_nat X_MAX)) 0
  end.

(** All [MODULUS] nodes of a formula carry a nonzero modulus. *)
Fixpoint moduli_nonzero (f : PresburgerFormula) : bool :=
  match f with
  | MODULUS _ m _ => negb (m =? 0)
  | AND cs | OR cs => forallb moduli_nonzero cs
  | NOT c | EXISTS _ c => moduli_nonzero c
  | _ => true
  end.

(* ------------------------------------------------------------------ *)
(** ** The game graph and [GGGTemporalGameManager] *)

(** Vertex properties [name], [player], [target] of the GGG graph. *)
Record VertexProps := mkVertex {
  name : string;
  player : Z;
  target : Z
}.

(** An edge [source -> target_v] with its [label]; the constraint kept by
    the manager in [edge_constraints_] is stored with the edge, [None]
    when the map has no entry for it. *)
Record Edge := mkEdge {
  source : nat;
  target_v : nat;
  label : string;
  constraint : option PresburgerFormula
}.

(** A boost [vecS] graph: vertex [i] is the [i]-th vertex added; edges are
    kept in insertion order (the order of [out_edges] of each vertex). *)
Record GGGTemporalGraph := mkGraph {
  vertices_ : list VertexProps;
  edges_ : list Edge
}.

Definition num_vertices (g : GGGTemporalGraph) : nat := length (vertices_ g).

(** [boost::vertices(graph)]: the descriptors [0 .. num_vertices - 1]. *)
Definition vertex_list (g : GGGTemporalGraph) : list nat :=
  seq 0 (num_vertices g).

Definition player_of (g : GGGTemporalGraph) (v : nat) : Z :=
  match vertices_ g !! v with Some p => player p | None => 0 end.

Definition target_of (g : GGGTemporalGraph) (v : nat) : Z :=
  match vertices_ g !! v with Some p => target p | None => 0 end.

Definition out_edges (g : GGGTemporalGraph) (v : nat) : list Edge :=
  List.filter (fun e => Nat.eqb (source e) v) (edges_ g).

Definition out_degree (g : GGGTemporalGraph) (v : nat) : nat :=
  length (out_edges g v).

(** [is_edge_constraint_satisfied]: no constraint means always available;
    otherwise the constraint is evaluated in [{time |-> time}].  The only
    way evaluation fails is the undefined [%] by zero ([None]); the real
    program then stops with a signal that the [try/catch] does not
    catch.  The model returns [false] there, a value the program never
    returns: results of the model agree with the program only on runs
    that evaluate no [%] by zero. *)
Definition is_edge_constraint_satisfied (e : Edge) (time : Z) : bool :=
  match constraint e with
  | None => true
  | Some f =>
      match evaluate {[ "time" := time ]} f with
      | Some b => b
      | None => false
      end
  end.

(** [get_available_moves]: targets of the outgoing edges whose constraint
    holds at [time], in [out_edges] order. *)
Definition get_available_moves (g : GGGTemporalGraph) (vertex : nat) (time : Z)
  : list nat :=
  map target_v
      (List.filter (fun e => is_edge_constraint_satisfied e time)
                   (out_edges g vertex)).

(** [get_target_vertices]: vertices whose [target] property is 1. *)
Definition get_target_vertices (g : GGGTemporalGraph) : list nat :=
  List.filter (fun v => target_of g v =? 1) (vertex_list g).

(** [validate_game_structure]. *)
Definition validate_game_structure (g : GGGTemporalGraph) : bool :=
  if Nat.eqb (num_vertices g) 0 then false
  else if existsb (fun v => Nat.eqb (out_degree g v) 0) (vertex_list g)
  then false
  else negb (Nat.eqb (length (get_target_vertices g)) 0).

(* ------------------------------------------------------------------ *)
(** ** Objectives *)

Inductive ObjectiveType :=
| REACHABILITY
| SAFETY
| TIME_BOUNDED_REACH
| TIME_BOUNDED_SAFETY.

(** [GGGReachabilityObjective]. *)
Record GGGReachabilityObjective := mkObjective {
  type_ : ObjectiveType;
  target_vertices_ : list nat;
  time_bound_ : Z
}.

Definition is_target (o : GGGReachabilityObjective) (vertex : nat) : bool :=
  bool_decide (vertex ∈ target_vertices_ o).

Definition is_satisfied (o : GGGReachabilityObjective) (vertex : nat) (time : Z)
  : bool :=
  match type_ o with
  | REACHABILITY => is_target o vertex
  | TIME_BOUNDED_REACH =>
      is_target o vertex && ((time_bound_ o <? 0) || (time <=? time_bound_ o))
  | SAFETY => negb (is_target o vertex)
  | TIME_BOUNDED_SAFETY =>
      negb (is_target o vertex) || ((0 <=? time_bound_ o) && (time_bound_ o <? time))
  end.

Definition has_failed (o : GGGReachabilityObjective) (vertex : nat) (time : Z)
  : bool :=
  match type_ o with
  | REACHABILITY => false
  | TIME_BOUNDED_REACH =>
      (0 <=? time_bound_ o) && (time_bound_ o <? time) && negb (is_target o vertex)
  | SAFETY => is_target o vertex
  | TIME_BOUNDED_SAFETY =>
      is_target o vertex && ((time_bound_ o <? 0) || (time <=? time_bound_ o))
  end.

(** [ReachabilityObjective] of src/src/reachability_objective.cpp, the
    objective class of the older (non-GGG) solver. *)
Module ReachabilityObjective.

Record t := mk {
  type_ : ObjectiveType;
  targets_ : list nat;
  time_bound_ : Z
}.

Definition is_target (o : t) (vertex : nat) : bool :=
  bool_decide (vertex ∈ targets_ o).

Definition is_satisfied (o : t) (current_vertex : nat) (current_time : Z) : bool :=
  let at_target := is_target o current_vertex in
  match type_ o with
  | REACHABILITY | TIME_BOUNDED_REACH => at_target
  | SAFETY => negb at_target
  | TIME_BOUNDED_SAFETY =>
      if (0 <=? time_bound_ o) && (time_bound_ o <=? current_time) then true
      else negb at_target
  end.

Definition has_failed (o : t) (current_vertex : nat) (current_time : Z) : bool :=
  let at_target := is_target o current_vertex in
  match type_ o with
  | REACHABILITY => false
  | TIME_BOUNDED_REACH =>
      if (0 <=? time_bound_ o) && (time_bound_ o <? current_time)
      then negb at_target else false
  | SAFETY => at_target
  | TIME_BOUNDED_SAFETY => at_target
  end.

End ReachabilityObjective.

(* ------------------------------------------------------------------ *)
(** ** [GGGTemporalReachabilitySolver::compute_backwards_temporal_attractor] *)

Section Solvers.

Variable g : GGGTemporalGraph.
Variable objective : GGGReachabilityObjective.

Definition mem (v : nat) (s : list nat) : bool := bool_decide (v ∈ s).

(** One iteration of the [for (time ...)] loop: the new attractor. *)
Definition backward_step (time : Z) (current_attractor : list nat) : list nat :=
  List.filter
    (fun vertex =>
       match get_available_moves g vertex time with
       | [] => false                          (* no moves: skip the vertex *)
       | moves =>
           if player_of g vertex =? 0
           then existsb (fun move => mem move current_attractor) moves
           else forallb (fun move => mem move current_attractor) moves
       end)
    (vertex_list g).

(** [for (int time = k - 1; time >= 0; --time) current = new]: with [k]
    iterations left the current time is [k - 1]. *)
Fixpoint backward_loop (k : nat) (current_attractor : list nat) : list nat :=
  match k with
  | O => current_attractor
  | S k' => backward_loop k' (backward_step (Z.of_nat k') current_attractor)
  end.

Definition initial_attractor : list nat :=
  List.filter (fun v => is_target objective v) (vertex_list g).

Definition compute_backwards_temporal_attractor (max_time : Z) : list nat :=
  backward_loop (Z.to_nat max_time) initial_attractor.

(* ------------------------------------------------------------------ *)
(** ** [GGGTemporalExpansionSolver] *)

(** A static vertex [(v, time)].  The code numbers static vertices through
    [vertex_map_], a bijection onto the vertices of the static graph; the
    model names each static vertex by its key in that map. *)
Abbreviation StaticVertex := (nat * nat)%type.

Definition smem (x : StaticVertex) (s : list StaticVertex) : bool :=
  bool_decide (x ∈ s).

(** Step 1 of [expand_temporal_graph]: one static vertex per original
    vertex and [time = 0 .. max_time]. *)
Definition static_vertices (max_time : Z) : list StaticVertex :=
  flat_map (fun v => map (fun time => (v, time)) (seq 0 (Z.to_nat (max_time + 1))))
           (vertex_list g).

(** Step 2 of [expand_temporal_graph]: for every edge and every
    [time < max_time] whose constraint holds, the static edge
    [(source, time) -> (target, time + 1)]. *)
Definition static_edges (max_time : Z) : list (StaticVertex * StaticVertex) :=
  flat_map (fun e =>
              map (fun time => ((source e, time), (target_v e, S time)))
                  (List.filter (fun time => is_edge_constraint_satisfied e (Z.of_nat time))
                               (seq 0 (Z.to_nat max_time))))
           (edges_ g).

(** [create_expanded_target_set]: the max-time copy of every objective
    target that [vertex_map_] knows. *)
Definition create_expanded_target_set (max_time : Z) : list StaticVertex :=
  List.filter (fun x => smem x (static_vertices max_time))
              (map (fun v => (v, Z.to_nat max_time)) (target_vertices_ objective)).

(** Some out-edge of [vertex] leads into [attractor]. *)
Definition has_successor_in (sedges : list (StaticVertex * StaticVertex))
    (attractor : list StaticVertex) (vertex : StaticVertex) : bool :=
  existsb (fun e => bool_decide (fst e = vertex) && smem (snd e) attractor) sedges.

(** The [while (changed)] loop of [compute_static_attractor]: every sweep
    collects the vertices outside the attractor with an out-edge into it,
    then inserts them; the loop stops after a sweep that found none.  Each
    continuing sweep adds a static vertex, so [length svs + 1] rounds of
    fuel always suffice ([attractor_loop_closed] below). *)
Fixpoint attractor_loop (fuel : nat) (svs : list StaticVertex)
    (sedges : list (StaticVertex * StaticVertex)) (attractor : list StaticVertex)
  : list StaticVertex :=
  match fuel with
  | O => attractor
  | S fuel' =>
      match List.filter (fun v => negb (smem v attractor)
                                  && has_successor_in sedges attractor v) svs with
      | [] => attractor
      | new_vertices => attractor_loop fuel' svs sedges (attractor ++ new_vertices)
      end
  end.

Definition compute_static_attractor (svs : list StaticVertex)
    (sedges : list (StaticVertex * StaticVertex)) (target_set : list StaticVertex)
  : list StaticVertex :=
  attractor_loop (S (length svs)) svs sedges target_set.

(** [solve] followed by the first loop of [convert_solution_back]: the
    original vertices whose time-0 copy is in the attractor. *)
Definition expansion_winning_set (max_time : Z) : list nat :=
  let svs := static_vertices max_time in
  let winning := compute_static_attractor svs (static_edges max_time)
                                          (create_expanded_target_set max_time) in
  List.filter (fun v => smem (v, 0%nat) svs && smem (v, 0%nat) winning)
              (vertex_list g).

End Solvers.

(* ------------------------------------------------------------------ *)
(** ** Example games *)

Definition time_eq (n : Z) : PresburgerFormula := EQUAL (term_var "time") (term_const n).
Definition true_formula : PresburgerFormula := EQUAL (term_const 1) (term_const 1).

(** Scenario S1: [v0 (player 0)], [v1 (player 0, target)],
    [v0 -> v1] with constraint [time == 0]. *)
Definition game_S1 : GGGTemporalGraph :=
  mkGraph [mkVertex "v0" 0 0; mkVertex "v1" 0 1]
          [mkEdge 0 1 "" (Some (time_eq 0))].

Definition objective_of (g : GGGTemporalGraph) : GGGReachabilityObjective :=
  mkObjective REACHABILITY (get_target_vertices g) (-1).

(** Scenario S3 made valid: [v0 (player 1)], [t (player 0, target)],
    [s (player 0)]; [v0 -> t] and [v0 -> s] always available, and a
    self-loop on [t] and on [s]. *)
Definition game_S3 : GGGTemporalGraph :=
  mkGraph [mkVertex "v0" 1 0; mkVertex "t" 0 1; mkVertex "s" 0 0]
          [mkEdge 0 1 "" (Some true_formula); mkEdge 0 2 "" (Some true_formula);
           mkEdge 1 1 "" (Some true_formula); mkEdge 2 2 "" (Some true_formula)].

(** A valid game whose only constraint does not mention [time]: one
    target vertex of player 0 with an always-available self-loop. *)
Definition game_timeless : GGGTemporalGraph :=
  mkGraph [mkVertex "v0" 0 1] [mkEdge 0 0 "" (Some true_formula)].

(** [v0 (player 0)], [v1 (player 0, target)]; [v0 -> v1] with constraint
    [time == 0] and a self-loop on [v1] with constraint [time >= 5]. *)
Definition game_late_loop : GGGTemporalGraph :=
  mkGraph [mkVertex "v0" 0 0; mkVertex "v1" 0 1]
          [mkEdge 0 1 "" (Some (time_eq 0));
           mkEdge 1 1 "" (Some (GREATEREQUAL (term_var "time") (term_const 5)))].

(** The variables a term stores a coefficient for. *)
Definition term_mentions (x : string) (t : PresburgerTerm) : bool :=
  bool_decide (is_Some (coefficients_ t !! x)).

(** [x] occurs free in the formula (its support). *)
Fixpoint references_var (x : string) (f : PresburgerFormula) : bool :=
  match f with
  | EQUAL l r | GREATEREQUAL l r | LESSEQUAL l r | GREATER l r | LESS l r =>
      term_mentions x l || term_mentions x r
  | MODULUS t _ _ => term_mentions x t
  | AND cs | OR cs => existsb (references_var x) cs
  | NOT c => references_var x c
  | EXISTS y c => if bool_decide (y = x) then false else references_var x c
  end.

(** Pointwise sum of two optional coefficients, absent when both are. *)
Definition coeff_sum (a b : option Z) : option Z :=
  match a, b with
  | None, None => None
  | _, _ => Some (default 0 a + default 0 b)
  end.

(** Induction over formulas, with the hypothesis for [AND]/[OR] holding
    for every child. *)
Definition PresburgerFormula_nested_ind (P : PresburgerFormula -> Prop)
  (Hcmp : forall f, (forall cs, f <> AND cs) -> (forall cs, f <> OR cs) ->
                    (forall c, f <> NOT c) -> (forall x c, f <> EXISTS x c) -> P f)
  (Hand : forall cs, Forall P cs -> P (AND cs))
  (Hor : forall cs, Forall P cs -> P (OR cs))
  (Hnot : forall c, P c -> P (NOT c))
  (Hex : forall x c, P c -> P (EXISTS x c)) : forall f, P f :=
  fix go (f : PresburgerFormula) : P f :=
    let fix go_list (cs : list PresburgerFormula) : Forall P cs :=
      match cs with
      | [] => List.Forall_nil P
      | c :: cs' => @List.Forall_cons _ P c cs' (go c) (go_list cs')
      end in
    match f with
    | AND cs => Hand cs (go_list cs)
    | OR cs => Hor cs (go_list cs)
    | NOT c => Hnot c (go c)
    | EXISTS x c => Hex x c (go c)
    | f' => Hcmp f' ltac:(discriminate) ltac:(discriminate)
                    ltac:(discriminate) ltac:(discriminate)
    end.

(** The backward attractor as the specification words it (claim C2):
    [A'] holds of [v] iff [v] is a vertex, its set [M] of available moves
    at [time] is nonempty, a player-0 [v] has a move into [A], and a
    player-1 [v] has all its moves in [A]. *)
Definition spec_next (g : GGGTemporalGraph) (time : Z) (A : nat -> Prop) (v : nat)
  : Prop :=
  let M := get_available_moves g v time in
  (v < num_vertices g)%nat /\ M <> [] /\
  (player_of g v = 0 -> exists w, In w M /\ A w) /\
  (player_of g v = 1 -> forall w, In w M -> A w).

(** [A := targets]; then [A := A'] for [time = k - 1] down to [0]. *)
Fixpoint spec_iterate (g : GGGTemporalGraph) (k : nat) (A : nat -> Prop)
  : nat -> Prop :=
  match k with
  | O => A
  | S k' => spec_iterate g k' (spec_next g (Z.of_nat k') A)
  end.

Definition spec_backward (g : GGGTemporalGraph) (o : GGGReachabilityObjective)
    (T : nat) : nat -> Prop :=
  spec_iterate g T (fun v => (v < num_vertices g)%nat /\ is_target o v = true).

(** Exact-length timed reachability: from [v] at time [t], some sequence of
    [k] moves, each available at the time it is taken, ends in a target
    vertex (at time [t + k]); owners are not consulted. *)
Fixpoint reach_exact (g : GGGTemporalGraph) (o : GGGReachabilityObjective)
    (k : nat) (v : nat) (t : nat) : bool :=
  Nat.ltb v (num_vertices g) &&
  match k with
  | O => is_target o v
  | S k' => existsb (fun w => reach_exact g o k' w (S t))
                    (get_available_moves g v (Z.of_nat t))
  end.

(* ------------------------------------------------------------------ *)
(** ** Solutions of the two solvers *)

(** One entry of the [Solution] object: the winner set by
    [set_winning_player] and the move set by [set_strategy], if any. *)
Record SolutionEntry := mkEntry {
  sol_vertex : nat;
  winning_player : Z;
  strategy : option nat
}.

(** The loop of [GGGTemporalReachabilitySolver::solve] and the second loop
    of [GGGTemporalExpansionSolver::convert_solution_back]: a vertex in
    [player0_winning] is won by player 0, with the first move available at
    time 0 as its strategy when there is one; every other vertex is won by
    player 1. *)
Definition build_solution (g : GGGTemporalGraph) (player0_winning : list nat)
  : list SolutionEntry :=
  map (fun vertex =>
         if mem vertex player0_winning
         then mkEntry vertex 0 (head (get_available_moves g vertex 0))
         else mkEntry vertex 1 None)
      (vertex_list g).

Definition solve_backward (g : GGGTemporalGraph) (o : GGGReachabilityObjective)
    (max_time : Z) : list SolutionEntry :=
  build_solution g (compute_backwards_temporal_attractor g o max_time).

Definition solve_expansion (g : GGGTemporalGraph) (o : GGGReachabilityObjective)
    (max_time : Z) : list SolutionEntry :=
  build_solution g (expansion_winning_set g o max_time).

(* ------------------------------------------------------------------ *)
(** ** The summation of [evaluate_term] *)

(** The body of the loop of [evaluate_term], and what one entry adds. *)
Definition term_step (values : gmap string Z) (var : string) (coeff result : Z) : Z :=
  match values !! var with
  | Some v => result + coeff * v
  | None => result
  end.

Definition term_contrib (values : gmap string Z) (var : string) (coeff : Z) : Z :=
  match values !! var with
  | Some v => coeff * v
  | None => 0
  end.

(* ------------------------------------------------------------------ *)
(** ** [GGGTemporalGameManager::parse_constraint] and its helpers

    A C++ [char] is an [ascii]; the character classes are those of the
    "C" locale ([::isspace], [std::isdigit], [std::isalnum]), and [\s],
    [\w] and [.] of the [std::regex] ECMAScript grammar.  A thrown
    exception ([std::stoi] on a malformed or out-of-range number) is
    [None]: no caller in the loader catches it. *)

Definition is_space (c : ascii) : bool :=
  let n := nat_of_ascii c in Nat.eqb n 32 || (Nat.leb 9 n && Nat.leb n 13).

Definition is_digit (c : ascii) : bool :=
  let n := nat_of_ascii c in Nat.leb 48 n && Nat.leb n 57.

Definition is_alnum (c : ascii) : bool :=
  let n := nat_of_ascii c in
  is_digit c || (Nat.leb 65 n && Nat.leb n 90) || (Nat.leb 97 n && Nat.leb n 122).

(** [std::isalnum(c) || c == '_'], which is also the regex class [\w]. *)
Definition is_word (c : ascii) : bool := is_alnum c || Ascii.eqb c "_"%char.

(** [std::isdigit(c) || c == '-']. *)
Definition is_digit_or_minus (c : ascii) : bool := is_digit c || Ascii.eqb c "-"%char.

(** The characters the regex [.] does not match. *)
Definition is_line_terminator (c : ascii) : bool :=
  Ascii.eqb c "010"%char || Ascii.eqb c "013"%char.

(** [std::all_of(s.begin(), s.end(), p)]. *)
Fixpoint all_of (p : ascii -> bool) (s : string) : bool :=
  match s with
  | EmptyString => true
  | String c s' => p c && all_of p s'
  end.

(** [s.erase(std::remove_if(s.begin(), s.end(), ::isspace), s.end())]. *)
Fixpoint remove_whitespace (s : string) : string :=
  match s with
  | EmptyString => EmptyString
  | String c s' => if is_space c then remove_whitespace s' else String c (remove_whitespace s')
  end.

(** The longest prefix of [s] whose characters satisfy [p], and the rest. *)
Fixpoint span (p : ascii -> bool) (s : string) : string * string :=
  match s with
  | EmptyString => (EmptyString, EmptyString)
  | String c s' =>
      if p c then let '(a, b) := span p s' in (String c a, b) else (EmptyString, s)
  end.

(** [s.find(p)] ([None] is [npos]), [s.substr(n)], [s.starts_with(p)] and
    [s.ends_with(p)]; [s.substr(n, m)] is [String.substring n m s]. *)
Definition find (p s : string) : option nat := String.index 0 p s.

Definition substr_from (n : nat) (s : string) : string :=
  String.substring n (String.length s - n) s.

Definition starts_with (p s : string) : bool := String.prefix p s.

Definition ends_with (p s : string) : bool :=
  Nat.leb (String.length p) (String.length s) &&
  String.eqb (substr_from (String.length s - String.length p) s) p.

(** The decimal value of a string of digits. *)
Fixpoint digits_value_acc (acc : Z) (s : string) : Z :=
  match s with
  | EmptyString => acc
  | String c s' => digits_value_acc (acc * 10 + (Z.of_nat (nat_of_ascii c) - 48)) s'
  end.

Definition digits_value (s : string) : Z := digits_value_acc 0 s.

Definition INT_MIN : Z := -2147483648.
Definition INT_MAX : Z := 2147483647.

(** [std::stoi] (base 10): leading white space, an optional sign, then
    the longest run of digits, whatever follows it being ignored; no digit
    throws [std::invalid_argument], a value outside [int] throws
    [std::out_of_range]. *)
Definition stoi (s : string) : option Z :=
  let s1 := snd (span is_space s) in
  let '(negative, s2) :=
    match s1 with
    | String c r =>
        if Ascii.eqb c "-"%char then (true, r)
        else if Ascii.eqb c "+"%char then (false, r) else (false, s1)
    | EmptyString => (false, s1)
    end in
  let ds := fst (span is_digit s2) in
  match ds with
  | EmptyString => None
  | _ =>
      let v := if negative then - digits_value ds else digits_value ds in
      if (INT_MIN <=? v) && (v <=? INT_MAX) then Some v else None
  end.

(** [parse_presburger_term]: a constant, a variable, [coeff*var], and the
    constant 0 for anything else. *)
Definition parse_presburger_term (term_str : string) : option PresburgerTerm :=
  if all_of is_digit_or_minus term_str then term_const <$> stoi term_str
  else if all_of is_word term_str then Some (term_var term_str)
  else
    match find "*" term_str with
    | Some mult_pos =>
        let coeff_str := String.substring 0 mult_pos term_str in
        let var_str := substr_from (S mult_pos) term_str in
        if all_of is_digit_or_minus coeff_str && all_of is_word var_str
        then term_var_coeff var_str <$> stoi coeff_str
        else Some (term_const 0)
    | None => Some (term_const 0)
    end.

(** [PresburgerFormula::equal(PresburgerTerm(1), PresburgerTerm(0))]. *)
Definition false_formula : PresburgerFormula := EQUAL (term_const 1) (term_const 0).

(** [parse_comparison_formula]: split around the operator at [pos]. *)
Definition parse_comparison_formula (formula_str op : string) (pos : nat)
  : option PresburgerFormula :=
  let left_str := String.substring 0 pos formula_str in
  let right_str := substr_from (pos + String.length op) formula_str in
  match parse_presburger_term left_str, parse_presburger_term right_str with
  | Some left_term, Some right_term =>
      Some (if String.eqb op ">=" then GREATEREQUAL left_term right_term
            else if String.eqb op "<=" then LESSEQUAL left_term right_term
            else if String.eqb op ">" then GREATER left_term right_term
            else if String.eqb op "<" then LESS left_term right_term
            else if String.eqb op "==" || String.eqb op "=" then EQUAL left_term right_term
            else if String.eqb op "!=" then NOT (EQUAL left_term right_term)
            else EQUAL left_term right_term)
  | _, _ => None
  end.

(** [parse_logical_formula], given the recursive [parse_constraint]. *)
Definition parse_logical_formula (parse : string -> option PresburgerFormula)
    (formula_str op : string) (pos : nat) : option PresburgerFormula :=
  let left_str := String.substring 0 pos formula_str in
  let right_str := substr_from (pos + String.length op) formula_str in
  match parse left_str, parse right_str with
  | Some left_formula, Some right_formula =>
      Some (if String.eqb op "&&" then AND [left_formula; right_formula]
            else if String.eqb op "||" then OR [left_formula; right_formula]
            else true_formula)
  | _, _ => None
  end.

(** The common body of [parse_modulus_constraint] ([skip = 3], after
    ["mod"]) and [parse_percent_modulus_constraint] ([skip = 1], after
    ['%']). *)
Definition parse_mod_after (formula_str : string) (pos skip : nat)
  : option PresburgerFormula :=
  let expr_str := String.substring 0 pos formula_str in
  let remainder_str := substr_from (pos + skip) formula_str in
  match find "==" remainder_str with
  | None => Some true_formula
  | Some eq_pos =>
      let modulus_str := String.substring 0 eq_pos remainder_str in
      let result_str := substr_from (eq_pos + 2) remainder_str in
      match parse_presburger_term expr_str, stoi modulus_str, stoi result_str with
      | Some expr_term, Some m, Some r => Some (modulus expr_term m r)
      | _, _, _ => None
      end
  end.

Definition parse_modulus_constraint (formula_str : string) (mod_pos : nat)
  : option PresburgerFormula := parse_mod_after formula_str mod_pos 3.

Definition parse_percent_modulus_constraint (formula_str : string) (percent_pos : nat)
  : option PresburgerFormula := parse_mod_after formula_str percent_pos 1.

(** The last character of a string, if any. *)
Fixpoint last_char (s : string) : option ascii :=
  match s with
  | EmptyString => None
  | String c EmptyString => Some c
  | String _ s' => last_char s'
  end.

(** [std::regex_match] of [exists\s+(\w+)\s*:\s*(.+)], returning the two
    groups.  [\s], [\w] and [:] are disjoint, so every split is forced
    except the one between the last [\s*] and [(.+)]: the greedy [\s*]
    gives back its last character when nothing else is left for [.+]. *)
Definition exists_regex_match (s : string) : option (string * string) :=
  if negb (String.prefix "exists" s) then None else
  let r := substr_from 6 s in
  let '(ws1, r1) := span is_space r in
  let '(var_name, r2) := span is_word r1 in
  let '(_, r3) := span is_space r2 in
  match ws1, var_name, r3 with
  | String _ _, String _ _, String c r4 =>
      if negb (Ascii.eqb c ":"%char) then None else
      let '(ws3, r5) := span is_space r4 in
      match r5 with
      | String _ _ =>
          if all_of (fun c => negb (is_line_terminator c)) r5
          then Some (var_name, r5) else None
      | EmptyString =>
          match last_char ws3 with
          | Some l => if is_line_terminator l then None else Some (var_name, String l EmptyString)
          | None => None
          end
      end
  | _, _, _ => None
  end.

(** [parse_existential_formula], given the recursive [parse_constraint]. *)
Definition parse_existential_formula (parse : string -> option PresburgerFormula)
    (formula_str : string) : option PresburgerFormula :=
  match exists_regex_match formula_str with
  | Some (var_name, inner_formula_str) => EXISTS var_name <$> parse inner_formula_str
  | None => Some true_formula
  end.

(** The first operator of [ops] (in that order) that occurs in [s], with
    its position: the [for (op : {...})] loops. *)
Fixpoint find_first_op (ops : list string) (s : string) : option (string * nat) :=
  match ops with
  | [] => None
  | op :: ops' =>
      match find op s with
      | Some pos => Some (op, pos)
      | None => find_first_op ops' s
      end
  end.

Definition comparison_ops : list string := [">="; "<="; ">"; "<"; "=="; "!="].
Definition logical_ops : list string := ["&&"; "||"].

(** [parse_constraint], with a fuel argument bounding the depth of
    recursion; [parse_constraint] below gives it more than the length of
    its input, which every recursive call shortens. *)
Fixpoint parse_constraint_fuel (fuel : nat) (constraint_str : string)
  : option PresburgerFormula :=
  match fuel with
  | O => None
  | S fuel' =>
      let cleaned := remove_whitespace constraint_str in
      if String.eqb cleaned "true" then Some true_formula
      else if String.eqb cleaned "false" then Some false_formula
      else if starts_with "exists" cleaned
      then parse_existential_formula (parse_constraint_fuel fuel') cleaned
      else if starts_with "!" cleaned
      then NOT <$> parse_constraint_fuel fuel' (substr_from 1 cleaned)
      else if starts_with "(" cleaned && ends_with ")" cleaned
      then parse_constraint_fuel fuel' (String.substring 1 (String.length cleaned - 2) cleaned)
      else match find "mod" cleaned with
      | Some mod_pos => parse_modulus_constraint cleaned mod_pos
      | None =>
      match find "%" cleaned with
      | Some percent_pos => parse_percent_modulus_constraint cleaned percent_pos
      | None =>
      match find_first_op comparison_ops cleaned with
      | Some (op, pos) => parse_comparison_formula cleaned op pos
      | None =>
      match find_first_op logical_ops cleaned with
      | Some (op, pos) => parse_logical_formula (parse_constraint_fuel fuel') cleaned op pos
      | None => Some true_formula
      end end end end
  end.

Definition parse_constraint (constraint_str : string) : option PresburgerFormula :=
  parse_constraint_fuel (S (String.length constraint_str)) constraint_str.

(* ================================================================== *)
(** * Properties *)

Example evaluate_mod_example :
  evaluate {[ "time" := 3 ]} (MODULUS (term_var "time") 2 1) = Some true.
Proof. reflexivity. Qed.

Example evaluate_exists_example :
  evaluate {[ "time" := 5 ]}
    (EXISTS "k" (EQUAL (term_var "time")
                       (term_plus (term_var_coeff "k" 2) (term_const 1))))
  = Some true.
Proof. reflexivity. Qed.

Example S1_backward :
  compute_backwards_temporal_attractor game_S1 (objective_of game_S1) 1 = [0%nat].
Proof. vm_compute. reflexivity. Qed.

Example S1_expansion :
  expansion_winning_set game_S1 (objective_of game_S1) 1 = [0%nat].
Proof. vm_compute. reflexivity. Qed.

Example S3_backward :
  compute_backwards_temporal_attractor game_S3 (objective_of game_S3) 1 = [1%nat].
Proof. vm_compute. reflexivity. Qed.

Example S3_expansion :
  expansion_winning_set game_S3 (objective_of game_S3) 1 = [0%nat; 1%nat].
Proof. vm_compute. reflexivity. Qed.

Example S3_valid : validate_game_structure game_S3 = true.
Proof. vm_compute. reflexivity. Qed.

Example S1_exp_T2 :
  expansion_winning_set game_S1 (objective_of game_S1) 2 = [].
Proof. vm_compute. reflexivity. Qed.

Example late_loop_T1 :
  expansion_winning_set game_late_loop (objective_of game_late_loop) 1 = [0%nat].
Proof. vm_compute. reflexivity. Qed.

Example late_loop_T2 :
  expansion_winning_set game_late_loop (objective_of game_late_loop) 2 = [].
Proof. vm_compute. reflexivity. Qed.

(* ------------------------------------------------------------------ *)
(** ** Objectives *)

(** The [GGGReachabilityObjective] queries are never both true. *)
Lemma ggg_objective_disjoint o v t :
  ~ (is_satisfied o v t = true /\ has_failed o v t = true).
Proof.
  unfold is_satisfied, has_failed. intros [H1 H2].
  destruct (type_ o), (is_target o v); simpl in *; try discriminate;
    repeat rewrite ?andb_true_iff, ?orb_true_iff, ?Z.ltb_lt, ?Z.leb_le in *;
    lia.
Qed.

(** C10 (code defect, reachability_objective.cpp): for a
    [TIME_BOUNDED_SAFETY] objective with bound 3, at the target vertex 0 and
    time 5, [is_satisfied] and [has_failed] both return true. *)
Theorem C10_time_bounded_safety_both :
  let o := ReachabilityObjective.mk TIME_BOUNDED_SAFETY [0%nat] 3 in
  ReachabilityObjective.is_satisfied o 0 5 = true /\
  ReachabilityObjective.has_failed o 0 5 = true.
Proof. vm_compute. split; reflexivity. Qed.

(* ------------------------------------------------------------------ *)
(** ** Term arithmetic *)

Lemma term_plus_lookup t1 t2 var :
  coefficients_ (term_plus t1 t2) !! var =
  coeff_sum (coefficients_ t1 !! var) (coefficients_ t2 !! var).
Proof.
  unfold term_plus; simpl. revert var.
  apply (map_fold_weak_ind
           (fun (r : gmap string Z) (m : gmap string Z) =>
              forall var, r !! var = coeff_sum (coefficients_ t1 !! var) (m !! var))).
  - intros var. rewrite lookup_empty.
    destruct (coefficients_ t1 !! var); simpl; [f_equal; lia | reflexivity].
  - intros i x m r Hi IH var.
    destruct (decide (var = i)) as [->|Hne].
    + rewrite !lookup_insert_eq, IH, Hi.
      destruct (coefficients_ t1 !! i); simpl; f_equal; lia.
    + rewrite !lookup_insert_ne by congruence. apply IH.
Qed.

(** C9 (amended): [t1 + t2] stores, for every variable stored in [t1] or in
    [t2], the sum of the two coefficients (a missing one counting as 0),
    also when that sum is zero; [t1 * k] keeps every key of [t1] with its
    coefficient multiplied by [k], also when the product is zero. *)
Theorem C9_term_ops_coefficients t1 t2 k var :
  coefficients_ (term_plus t1 t2) !! var =
    coeff_sum (coefficients_ t1 !! var) (coefficients_ t2 !! var) /\
  coefficients_ (term_mult t1 k) !! var =
    (fun c => c * k) <$> coefficients_ t1 !! var.
Proof.
  split.
  - apply term_plus_lookup.
  - unfold term_mult; simpl. by rewrite lookup_fmap.
Qed.

(** C9 (counterexample): [x + (-1)*x] and [x * 0] both store [x] with
    coefficient zero, though [x] and [-1*x] satisfy the invariant. *)
Lemma C9_zero_coefficient_kept :
  term_invariant (term_var "x") /\
  term_invariant (term_var_coeff "x" (-1)) /\
  coefficients_ (term_plus (term_var "x") (term_var_coeff "x" (-1))) !! "x" = Some 0 /\
  ~ term_invariant (term_plus (term_var "x") (term_var_coeff "x" (-1))) /\
  ~ term_invariant (term_mult (term_var "x") 0).
Proof.
  assert (Hx : coefficients_ (term_plus (term_var "x") (term_var_coeff "x" (-1))) !! "x"
               = Some 0) by (rewrite term_plus_lookup; reflexivity).
  unfold term_invariant. split; [|split; [|split; [|split]]].
  - intros var c H. simpl in H.
    apply lookup_singleton_Some in H as [_ <-]. lia.
  - intros var c H. simpl in H.
    apply lookup_singleton_Some in H as [_ <-]. lia.
  - exact Hx.
  - intros H. exact (H "x" 0 Hx eq_refl).
  - intros H. apply (H "x" 0); [|reflexivity].
    simpl. rewrite lookup_fmap, lookup_singleton_eq. reflexivity.
Qed.

(* ------------------------------------------------------------------ *)
(** ** Formula evaluation *)

(** C5 (amended): for [m > 0], [Mod(t, m, r)] evaluates to
    [eval(t) % m == r] with the truncating C++ [%] ([Z.rem]); this agrees
    with the normalised [((eval(t) % m) + m) % m] when [eval(t) >= 0]. *)
Theorem C5_mod_truncating (t : PresburgerTerm) (e : gmap string Z) (m r : Z)
  (Hm : 0 < m) :
  evaluate e (MODULUS t m r) = Some (Z.rem (evaluate_term t e) m =? r) /\
  (0 <= evaluate_term t e ->
   Z.rem (Z.rem (evaluate_term t e) m + m) m = Z.rem (evaluate_term t e) m).
Proof.
  split.
  - simpl. destruct (Z.eqb_spec m 0); [lia | reflexivity].
  - intros Hx.
    rewrite (Z.rem_mod_nonneg (evaluate_term t e)) by lia.
    assert (0 <= evaluate_term t e mod m) by (apply Z.mod_pos_bound; lia).
    rewrite (Z.rem_mod_nonneg (_ + m)) by lia.
    rewrite <- (Z.mul_1_l m) at 2. rewrite Z.mod_add, Z.mod_mod; lia.
Qed.

Lemma C5_mod_truncating_witness :
  0 < 2 /\
  evaluate {[ "time" := 3 ]} (MODULUS (term_var "time") 2 1) =
    Some (Z.rem (evaluate_term (term_var "time") {[ "time" := 3 ]}) 2 =? 1) /\
  (0 <= evaluate_term (term_var "time") {[ "time" := 3 ]} ->
   Z.rem (Z.rem (evaluate_term (term_var "time") {[ "time" := 3 ]}) 2 + 2) 2 =
   Z.rem (evaluate_term (term_var "time") {[ "time" := 3 ]}) 2).
Proof.
  split; [lia|]. apply (C5_mod_truncating (term_var "time") {[ "time" := 3 ]} 2 1).
  lia.
Defined.

(** C5 (counterexample): with [eval(t) = -1], [m = 2], [r = 1] the
    normalised remainder is 1 but [Mod] evaluates to false, since
    [-1 % 2 = -1]. *)
Lemma C5_negative_not_normalised :
  ~ (forall t e m r, 0 < m -> 0 <= r < m ->
       (evaluate e (MODULUS t m r) = Some true <->
        Z.rem (Z.rem (evaluate_term t e) m + m) m = r)).
Proof.
  intros H. specialize (H (term_const (-1)) ∅ 2 1 ltac:(lia) ltac:(lia)).
  vm_compute in H. destruct H as [_ H]. discriminate (H eq_refl).
Qed.

Lemma evaluate_defined (f : PresburgerFormula) :
  forall e, moduli_nonzero f = true -> evaluate e f <> None.
Proof.
  induction f as [f Hand Hor Hnot Hex|cs IH|cs IH|c IH|x c IH]
    using PresburgerFormula_nested_ind; intros e Hf.
  - destruct f; simpl in *; try discriminate.
    + exfalso; eapply Hand; reflexivity.
    + exfalso; eapply Hor; reflexivity.
    + exfalso; eapply Hnot; reflexivity.
    + exfalso; eapply Hex; reflexivity.
    + match goal with |- context [if ?b then _ else _] => destruct b end;
      simpl in *; discriminate.
  - simpl in *. induction IH as [|c cs Hc Hcs IHcs]; [discriminate|].
    apply andb_true_iff in Hf as [Hc' Hcs'].
    destruct (evaluate e c) as [[]|] eqn:E; auto; exfalso; exact (Hc e Hc' E).
  - simpl in *. induction IH as [|c cs Hc Hcs IHcs]; [discriminate|].
    apply andb_true_iff in Hf as [Hc' Hcs'].
    destruct (evaluate e c) as [[]|] eqn:E; auto; exfalso; exact (Hc e Hc' E).
  - simpl in *. specialize (IH e Hf). destruct (evaluate e c); congruence.
  - simpl in Hf. cbn [evaluate]. generalize (S (Z.to_nat X_MAX)) 0. intros n.
    induction n as [|n IHn]; intros val; simpl; [discriminate|].
    specialize (IH (<[x:=val]> e) Hf).
    destruct (evaluate (<[x:=val]> e) c) as [[]|]; auto.
Qed.

(** C6 (amended): [Mod] construction stores any modulus unchecked, so
    [m <= 0] is accepted; a modulo by zero happens only through a [Mod]
    node with [m = 0]: a formula whose moduli are all nonzero always
    evaluates without dividing by zero. *)
Theorem C6_nonzero_moduli_evaluate (f : PresburgerFormula) (e : gmap string Z)
  (Hf : moduli_nonzero f = true) :
  evaluate e f <> None.
Proof. exact (evaluate_defined f e Hf). Qed.

Lemma C6_nonzero_moduli_evaluate_witness :
  moduli_nonzero (MODULUS (term_var "time") 2 1) = true /\
  evaluate {[ "time" := 3 ]} (MODULUS (term_var "time") 2 1) <> None.
Proof.
  split; [reflexivity|].
  apply (C6_nonzero_moduli_evaluate (MODULUS (term_var "time") 2 1)).
  reflexivity.
Defined.

(** C6 (counterexample): [modulus t 0 0] is built without complaint and
    evaluating it reaches the [%] by zero. *)
Lemma C6_zero_modulus_accepted :
  modulus (term_const 5) 0 0 = MODULUS (term_const 5) 0 0 /\
  evaluate ∅ (modulus (term_const 5) 0 0) = None.
Proof. split; reflexivity. Qed.

Lemma exists_loop_spec (body : Z -> option bool) (fuel : nat) :
  forall val,
  (forall k, val <= k < val + Z.of_nat fuel -> body k <> None) ->
  (exists_loop body fuel val = Some true <->
   exists k, val <= k < val + Z.of_nat fuel /\ body k = Some true).
Proof.
  induction fuel as [|fuel IH]; intros val Hdef; simpl.
  - split; [discriminate|]. intros (k & Hk & _). lia.
  - destruct (body val) as [[]|] eqn:E.
    + split; [intros _; exists val; split; [lia | exact E] | reflexivity].
    + rewrite IH by (intros k Hk; apply Hdef; lia).
      split.
      * intros (k & Hk & Hb). exists k. split; [lia | exact Hb].
      * intros (k & Hk & Hb). exists k. split; [|exact Hb].
        destruct (Z.eq_dec k val) as [->|]; [congruence | lia].
    + exfalso. apply (Hdef val); [lia | exact E].
Qed.

(** C7: [Exists(x, f)] is true in [env] iff some [n] in [[0, 10]] makes [f]
    true in [env] with [x] bound to [n] (overriding [env]'s binding),
    whenever the evaluations of [f] it performs are defined. *)
Theorem C7_exists_bounded (env : gmap string Z) (x : string) (f : PresburgerFormula)
  (Hdef : forall n, 0 <= n <= X_MAX -> evaluate (<[ x := n ]> env) f <> None) :
  evaluate env (EXISTS x f) = Some true <->
  exists n, 0 <= n <= 10 /\ evaluate (<[ x := n ]> env) f = Some true.
Proof.
  cbn [evaluate]. rewrite exists_loop_spec.
  - split; intros (n & Hn & Hb); exists n; (split; [|exact Hb]);
      unfold X_MAX in *; simpl in *; lia.
  - intros k Hk. apply Hdef. unfold X_MAX in *. simpl in *. lia.
Qed.

Lemma C7_exists_bounded_witness :
  (forall n, 0 <= n <= X_MAX ->
     evaluate (<[ "k" := n ]> {[ "time" := 5 ]})
       (EQUAL (term_var "time") (term_plus (term_var_coeff "k" 2) (term_const 1)))
     <> None) /\
  (evaluate {[ "time" := 5 ]}
     (EXISTS "k" (EQUAL (term_var "time")
                        (term_plus (term_var_coeff "k" 2) (term_const 1)))) = Some true <->
   exists n, 0 <= n <= 10 /\
     evaluate (<[ "k" := n ]> {[ "time" := 5 ]})
       (EQUAL (term_var "time") (term_plus (term_var_coeff "k" 2) (term_const 1)))
     = Some true).
Proof.
  assert (H : forall n, 0 <= n <= X_MAX ->
     evaluate (<[ "k" := n ]> {[ "time" := 5 ]})
       (EQUAL (term_var "time") (term_plus (term_var_coeff "k" 2) (term_const 1)))
     <> None) by (intros n _; simpl; discriminate).
  split; [exact H|]. apply C7_exists_bounded. exact H.
Defined.

(* ------------------------------------------------------------------ *)
(** ** Game validation *)

Lemma in_vertex_list g v : In v (vertex_list g) <-> (v < num_vertices g)%nat.
Proof. unfold vertex_list. rewrite in_seq. lia. Qed.

(** C8 (amended): validation accepts a game iff it has a vertex, every
    vertex has an outgoing edge, and some vertex has target flag 1; it
    does not look at the edge constraints. *)
Theorem C8_validate_iff g :
  validate_game_structure g = true <->
  num_vertices g <> 0%nat /\
  (forall v, (v < num_vertices g)%nat -> out_degree g v <> 0%nat) /\
  (exists v, (v < num_vertices g)%nat /\ target_of g v = 1).
Proof.
  unfold validate_game_structure.
  destruct (Nat.eqb_spec (num_vertices g) 0) as [H0|H0].
  { split; [discriminate|]. intros [H _]. contradiction. }
  destruct (existsb (fun v => Nat.eqb (out_degree g v) 0) (vertex_list g)) eqn:E.
  - split; [discriminate|]. intros (_ & Hout & _).
    apply existsb_exists in E as (v & Hv & Hd).
    apply in_vertex_list in Hv. apply Nat.eqb_eq in Hd. destruct (Hout v Hv Hd).
  - assert (Hout : forall v, (v < num_vertices g)%nat -> out_degree g v <> 0%nat).
    { intros v Hv Hd. apply in_vertex_list in Hv.
      assert (Hex : existsb (fun v => Nat.eqb (out_degree g v) 0) (vertex_list g) = true)
        by (apply existsb_exists; exists v; split; [exact Hv | apply Nat.eqb_eq, Hd]).
      congruence. }
    unfold get_target_vertices.
    destruct (List.filter (fun v => target_of g v =? 1) (vertex_list g)) as [|w ws] eqn:F.
    + split; [discriminate|]. intros (_ & _ & v & Hv & Ht).
      assert (Hin : In v (List.filter (fun v => target_of g v =? 1) (vertex_list g)))
        by (apply filter_In; split; [apply in_vertex_list, Hv | apply Z.eqb_eq, Ht]).
      rewrite F in Hin. contradiction.
    + split; [|reflexivity]. intros _. split; [exact H0|]. split; [exact Hout|].
      assert (Hin : In w (List.filter (fun v => target_of g v =? 1) (vertex_list g)))
        by (rewrite F; left; reflexivity).
      apply filter_In in Hin as [Hw Ht].
      exists w. split; [apply in_vertex_list, Hw | apply Z.eqb_eq, Ht].
Qed.

(** C8 (counterexample): [game_timeless] passes validation although its
    only constraint, [1 == 1], does not mention [time]. *)
Lemma C8_timeless_constraint_accepted :
  validate_game_structure game_timeless = true /\
  forallb (fun e => match constraint e with
                    | Some f => negb (references_var "time" f)
                    | None => true
                    end) (edges_ game_timeless) = true.
Proof. vm_compute. split; reflexivity. Qed.

(* ------------------------------------------------------------------ *)
(** ** Solvers on concrete games *)

(** C4 (amended): on scenario S1 with [T = 1] both solvers return exactly
    [{v0}]: [v1] has no outgoing edge, so no move is available from it at
    time 0 and it leaves the (replaced, not accumulated) attractor. *)
Theorem C4_S1_winners :
  compute_backwards_temporal_attractor game_S1 (objective_of game_S1) 1 = [0%nat] /\
  expansion_winning_set game_S1 (objective_of game_S1) 1 = [0%nat].
Proof. vm_compute. split; reflexivity. Qed.

(** C4 (counterexample): neither solver returns [{v0, v1}] on S1. *)
Lemma C4_S1_not_both :
  compute_backwards_temporal_attractor game_S1 (objective_of game_S1) 1 <> [0%nat; 1%nat] /\
  expansion_winning_set game_S1 (objective_of game_S1) 1 <> [0%nat; 1%nat].
Proof. vm_compute. split; discriminate. Qed.

(** C1 (code defect): on the valid game [game_S3] with [T = 1] the backward
    attractor returns [{t}] while the expansion solver returns [{v0, t}]:
    [compute_static_attractor] adds the player-1 vertex [v0@0] because one
    of its successors, [t@1], is in the attractor. *)
Theorem C1_solvers_disagree_S3 :
  validate_game_structure game_S3 = true /\
  compute_backwards_temporal_attractor game_S3 (objective_of game_S3) 1 = [1%nat] /\
  expansion_winning_set game_S3 (objective_of game_S3) 1 = [0%nat; 1%nat].
Proof. vm_compute. repeat split. Qed.

(** C3 (counterexample): on the valid game [game_late_loop] the expansion
    solver's winning set is [{v0}] for [T = 1] and empty for [T = 2]. *)
Lemma C3_expansion_not_monotone :
  validate_game_structure game_late_loop = true /\
  expansion_winning_set game_late_loop (objective_of game_late_loop) 1 = [0%nat] /\
  expansion_winning_set game_late_loop (objective_of game_late_loop) 2 = [] /\
  ~ (forall v, In v (expansion_winning_set game_late_loop (objective_of game_late_loop) 1) ->
              In v (expansion_winning_set game_late_loop (objective_of game_late_loop) 2)).
Proof.
  vm_compute. split; [reflexivity|]. split; [reflexivity|]. split; [reflexivity|].
  intros H. exact (H 0%nat (or_introl eq_refl)).
Qed.

(* ------------------------------------------------------------------ *)
(** ** The backwards temporal attractor *)

Lemma mem_In v (l : list nat) : mem v l = true <-> In v l.
Proof. unfold mem. rewrite bool_decide_eq_true. apply list_elem_of_In. Qed.

Lemma backward_step_spec g (time : Z) (L : list nat)
  (Hpl : forall v, (v < num_vertices g)%nat -> player_of g v = 0 \/ player_of g v = 1) :
  forall v, In v (backward_step g time L) <-> spec_next g time (fun w => In w L) v.
Proof.
  intros v. unfold backward_step, spec_next.
  rewrite filter_In, in_vertex_list.
  destruct (get_available_moves g v time) as [|w ws] eqn:M.
  - split; [intros [_ H]; discriminate H | intros (_ & H & _); congruence].
  - destruct (Z.eqb_spec (player_of g v) 0) as [P0|P0].
    + rewrite existsb_exists. split.
      * intros [Hv (u & Hu & Hm)]. apply mem_In in Hm.
        split; [exact Hv|]. split; [discriminate|]. split.
        -- intros _. exists u. split; assumption.
        -- intros P1. congruence.
      * intros (Hv & _ & Hex & _). split; [exact Hv|].
        destruct (Hex P0) as (u & Hu & Hm). exists u. split; [exact Hu|].
        apply mem_In, Hm.
    + assert (P1 : player_of g v = 1).
      { destruct (decide ((v < num_vertices g)%nat)) as [Hv|Hv].
        - destruct (Hpl v Hv); [contradiction | assumption].
        - exfalso. apply P0. unfold player_of.
          rewrite lookup_ge_None_2; [reflexivity|].
          unfold num_vertices in Hv. lia. }
      rewrite forallb_forall. split.
      * intros [Hv Hall]. split; [exact Hv|]. split; [discriminate|]. split.
        -- intros P0'. contradiction.
        -- intros _ u Hu. apply mem_In, Hall, Hu.
      * intros (Hv & _ & _ & Hall). split; [exact Hv|].
        intros u Hu. apply mem_In, (Hall P1 u Hu).
Qed.

Lemma backward_loop_spec g k (L : list nat) (A : nat -> Prop)
  (Hpl : forall v, (v < num_vertices g)%nat -> player_of g v = 0 \/ player_of g v = 1) :
  (forall v, In v L <-> A v) ->
  forall v, In v (backward_loop g k L) <-> spec_iterate g k A v.
Proof.
  revert L A. induction k as [|k IH]; intros L A HL v; simpl.
  - apply HL.
  - apply IH. intros w. rewrite backward_step_spec by exact Hpl.
    unfold spec_next. split; intros (Hw & Hne & H0 & H1);
      (split; [exact Hw|]); (split; [exact Hne|]); split.
    + intros P0. destruct (H0 P0) as (u & Hu & Hm). exists u. split; [exact Hu | apply HL, Hm].
    + intros P1 u Hu. apply HL, (H1 P1 u Hu).
    + intros P0. destruct (H0 P0) as (u & Hu & Hm). exists u. split; [exact Hu | apply HL, Hm].
    + intros P1 u Hu. apply HL, (H1 P1 u Hu).
Qed.

(** C2: with every vertex owned by player 0 or 1, the backward solver's
    result for bound [T] is the set obtained by starting from the targets
    and, for [time = T-1] down to [0], replacing [A] by [A'] as in
    [spec_next]. *)
Theorem C2_backward_attractor_spec (g : GGGTemporalGraph) (o : GGGReachabilityObjective)
  (T : nat)
  (Hpl : forall v, (v < num_vertices g)%nat -> player_of g v = 0 \/ player_of g v = 1) :
  forall v, In v (compute_backwards_temporal_attractor g o (Z.of_nat T)) <->
            spec_backward g o T v.
Proof.
  unfold compute_backwards_temporal_attractor, spec_backward.
  rewrite Nat2Z.id. apply backward_loop_spec; [exact Hpl|].
  intros v. unfold initial_attractor. rewrite filter_In, in_vertex_list. tauto.
Qed.

Lemma C2_backward_attractor_spec_witness :
  (forall v, (v < num_vertices game_S3)%nat ->
     player_of game_S3 v = 0 \/ player_of game_S3 v = 1) /\
  (forall v, In v (compute_backwards_temporal_attractor game_S3 (objective_of game_S3)
                     (Z.of_nat 1)) <->
             spec_backward game_S3 (objective_of game_S3) 1 v).
Proof.
  assert (H : forall v, (v < num_vertices game_S3)%nat ->
     player_of game_S3 v = 0 \/ player_of game_S3 v = 1).
  { intros v Hv. unfold num_vertices in Hv; simpl in Hv.
    destruct v as [|[|[|v]]]; [right|left|left|lia]; reflexivity. }
  split; [exact H|]. apply C2_backward_attractor_spec. exact H.
Defined.

(* ------------------------------------------------------------------ *)
(** ** The expansion solver *)

Lemma smem_In (x : nat * nat) l : smem x l = true <-> In x l.
Proof. unfold smem. rewrite bool_decide_eq_true. apply list_elem_of_In. Qed.

Lemma has_successor_in_spec sedges W (x : nat * nat) :
  has_successor_in sedges W x = true <-> exists y, In (x, y) sedges /\ In y W.
Proof.
  unfold has_successor_in. rewrite existsb_exists. split.
  - intros ([a b] & Hin & H). apply andb_true_iff in H as [H1 H2].
    apply bool_decide_eq_true in H1. apply smem_In in H2. simpl in *. subst.
    exists b. split; assumption.
  - intros (y & Hin & Hy). exists (x, y). split; [exact Hin|].
    apply andb_true_iff. split; [apply bool_decide_eq_true; reflexivity | apply smem_In, Hy].
Qed.

(** The attractor only grows. *)
Lemma attractor_loop_incl fuel svs sedges W (x : nat * nat) :
  In x W -> In x (attractor_loop fuel svs sedges W).
Proof.
  revert W. induction fuel as [|fuel IH]; intros W Hx; simpl; [exact Hx|].
  destruct (List.filter _ svs); [exact Hx|].
  apply IH, in_or_app. left. exact Hx.
Qed.

(** Any property of the initial set that every added vertex inherits from
    the current attractor holds of the whole result. *)
Lemma attractor_loop_invariant (Inv : nat * nat -> Prop) fuel svs sedges W :
  (forall x, In x W -> Inv x) ->
  (forall x W', In x svs -> (forall y, In y W' -> Inv y) ->
                has_successor_in sedges W' x = true -> Inv x) ->
  forall x, In x (attractor_loop fuel svs sedges W) -> Inv x.
Proof.
  intros HW Hstep. revert W HW. induction fuel as [|fuel IH]; intros W HW; simpl;
    [exact HW|].
  destruct (List.filter _ svs) as [|y ys] eqn:F; [exact HW|].
  apply IH. intros x Hx. apply in_app_or in Hx as [Hx|Hx]; [exact (HW x Hx)|].
  rewrite <- F in Hx. apply filter_In in Hx as [Hx Hc].
  apply andb_true_iff in Hc as [_ Hc]. exact (Hstep x W Hx HW Hc).
Qed.

Lemma filter_length_lt {A} (P Q : A -> bool) (l : list A) :
  (forall x, In x l -> Q x = true -> P x = true) ->
  (exists x, In x l /\ P x = true /\ Q x = false) ->
  (length (List.filter Q l) < length (List.filter P l))%nat.
Proof.
  induction l as [|a l IH]; intros Hsub (x & Hx & HP & HQ); [destruct Hx|].
  assert (Hle : forall l', (forall x, In x l' -> Q x = true -> P x = true) ->
                (length (List.filter Q l') <= length (List.filter P l'))%nat).
  { induction l' as [|b l' IH']; intros H; simpl; [lia|].
    destruct (Q b) eqn:Qb.
    - rewrite (H b (or_introl eq_refl) Qb). simpl.
      specialize (IH' (fun y Hy => H y (or_intror Hy))). lia.
    - specialize (IH' (fun y Hy => H y (or_intror Hy))).
      destruct (P b); simpl; lia. }
  simpl. destruct Hx as [<-|Hx].
  - rewrite HP, HQ. simpl.
    specialize (Hle l (fun y Hy => Hsub y (or_intror Hy))). lia.
  - specialize (IH (fun y Hy => Hsub y (or_intror Hy)) (ex_intro _ x (conj Hx (conj HP HQ)))).
    destruct (Q a) eqn:Qa.
    + rewrite (Hsub a (or_introl eq_refl) Qa). simpl. lia.
    + destruct (P a); simpl; lia.
Qed.

(** With enough fuel the loop stops at a closed set: no static vertex
    outside it has a successor inside it. *)
Lemma attractor_loop_closed fuel svs sedges W :
  (length (List.filter (fun v => negb (smem v W)) svs) < fuel)%nat ->
  forall x, In x svs -> ~ In x (attractor_loop fuel svs sedges W) ->
  has_successor_in sedges (attractor_loop fuel svs sedges W) x = false.
Proof.
  revert W. induction fuel as [|fuel IH]; intros W Hfuel; [lia|]. simpl.
  destruct (List.filter (fun v => negb (smem v W) && has_successor_in sedges W v) svs)
    as [|y ys] eqn:F.
  - intros x Hx Hnot. destruct (has_successor_in sedges W x) eqn:Hs; [|reflexivity].
    assert (Hin : In x (List.filter
                          (fun v => negb (smem v W) && has_successor_in sedges W v) svs)).
    { apply filter_In. split; [exact Hx|]. rewrite Hs, andb_true_r.
      apply negb_true_iff. destruct (smem x W) eqn:Hm; [|reflexivity].
      apply smem_In in Hm. contradiction. }
    rewrite F in Hin. destruct Hin.
  - apply IH.
    assert (Hy : In y (List.filter
                         (fun v => negb (smem v W) && has_successor_in sedges W v) svs))
      by (rewrite F; left; reflexivity).
    apply filter_In in Hy as [Hy Hc]. apply andb_true_iff in Hc as [Hc _].
    enough ((length (List.filter (fun v => negb (smem v (W ++ y :: ys))) svs)
             < length (List.filter (fun v => negb (smem v W)) svs))%nat) by lia.
    apply filter_length_lt.
    + intros x _ H. apply negb_true_iff in H. apply negb_true_iff.
      destruct (smem x W) eqn:Hm; [|reflexivity].
      apply smem_In in Hm. rewrite <- H. symmetry. apply smem_In, in_or_app. left. exact Hm.
    + exists y. split; [exact Hy|]. split; [exact Hc|].
      apply negb_false_iff, smem_In, in_or_app. right. left. reflexivity.
Qed.

Lemma static_vertices_In g (T : nat) v t :
  In (v, t) (static_vertices g (Z.of_nat T)) <->
  (v < num_vertices g)%nat /\ (t <= T)%nat.
Proof.
  unfold static_vertices.
  replace (Z.to_nat (Z.of_nat T + 1)) with (S T) by lia.
  rewrite in_flat_map. split.
  - intros (v' & Hv' & Hin). apply in_map_iff in Hin as (t' & [= <- <-] & Ht).
    apply in_vertex_list in Hv'. apply in_seq in Ht. split; lia.
  - intros [Hv Ht]. exists v. split; [apply in_vertex_list, Hv|].
    apply in_map_iff. exists t. split; [reflexivity | apply in_seq; lia].
Qed.

Lemma available_moves_In g v time w :
  In w (get_available_moves g v time) <->
  exists e, In e (edges_ g) /\ source e = v /\ target_v e = w /\
            is_edge_constraint_satisfied e time = true.
Proof.
  unfold get_available_moves, out_edges. rewrite in_map_iff. split.
  - intros (e & <- & He). apply filter_In in He as [He Hs].
    apply filter_In in He as [He Hv]. apply Nat.eqb_eq in Hv.
    exists e. repeat split; assumption.
  - intros (e & He & Hv & Hw & Hs). exists e. split; [exact Hw|].
    apply filter_In. split; [|exact Hs]. apply filter_In. split; [exact He|].
    apply Nat.eqb_eq, Hv.
Qed.

Lemma static_successor_spec g (T : nat) W v t :
  has_successor_in (static_edges g (Z.of_nat T)) W (v, t) = true <->
  exists w, (t < T)%nat /\ In w (get_available_moves g v (Z.of_nat t)) /\ In (w, S t) W.
Proof.
  rewrite has_successor_in_spec. unfold static_edges. rewrite Nat2Z.id. split.
  - intros (y & Hin & Hy). apply in_flat_map in Hin as (e & He & Hin).
    apply in_map_iff in Hin as (t' & [= Hs Ht Hy'] & Hin).
    apply filter_In in Hin as [Hin Hsat]. apply in_seq in Hin.
    subst. exists (target_v e). split; [lia|]. split; [|exact Hy].
    apply available_moves_In. exists e. repeat split; assumption.
  - intros (w & Ht & Hw & Hin). apply available_moves_In in Hw as (e & He & Hs & Hw' & Hsat).
    exists (w, S t). split; [|exact Hin]. apply in_flat_map. exists e. split; [exact He|].
    apply in_map_iff. exists t. rewrite Hs, Hw'. split; [reflexivity|].
    apply filter_In. split; [apply in_seq; lia | exact Hsat].
Qed.

Lemma expanded_target_set_In g o (T : nat) v t :
  In (v, t) (create_expanded_target_set g o (Z.of_nat T)) <->
  t = T /\ (v < num_vertices g)%nat /\ is_target o v = true.
Proof.
  unfold create_expanded_target_set, is_target. rewrite filter_In, in_map_iff, smem_In,
    static_vertices_In, Nat2Z.id, bool_decide_eq_true, list_elem_of_In.
  split.
  - intros ((v' & [= <- <-] & Hv) & Hn & _). auto.
  - intros (-> & Hn & Hv). split; [exists v; split; [reflexivity | exact Hv]|]. split; lia.
Qed.

(** The static attractor is exactly the set of static vertices [(v, t)]
    with [t <= T] from which a target is reached at time [T]. *)
Lemma static_attractor_spec g o (T : nat) v t :
  In (v, t) (compute_static_attractor (static_vertices g (Z.of_nat T))
               (static_edges g (Z.of_nat T)) (create_expanded_target_set g o (Z.of_nat T)))
  <-> (t <= T)%nat /\ reach_exact g o (T - t) v t = true.
Proof.
  unfold compute_static_attractor. split.
  - revert v t.
    enough (H : forall x, In x (attractor_loop (S (length (static_vertices g (Z.of_nat T))))
                                 (static_vertices g (Z.of_nat T)) (static_edges g (Z.of_nat T))
                                 (create_expanded_target_set g o (Z.of_nat T))) ->
                (snd x <= T)%nat /\ reach_exact g o (T - snd x) (fst x) (snd x) = true)
      by (intros v t Hx; exact (H (v, t) Hx)).
    apply attractor_loop_invariant.
    + intros [v t] Hx. apply expanded_target_set_In in Hx as (-> & Hn & Ht). simpl.
      split; [lia|]. rewrite Nat.sub_diag. simpl. apply andb_true_iff.
      split; [apply Nat.ltb_lt, Hn | exact Ht].
    + intros [v t] W' Hx HW' Hs. simpl.
      apply static_vertices_In in Hx as [Hn Ht].
      apply static_successor_spec in Hs as (w & Hlt & Hw & Hin).
      destruct (HW' _ Hin) as [_ Hr]. simpl in Hr. split; [lia|].
      replace (T - t)%nat with (S (T - S t)) by lia. simpl.
      apply andb_true_iff. split; [apply Nat.ltb_lt, Hn|].
      apply existsb_exists. exists w. split; assumption.
  - set (R := attractor_loop _ _ _ _).
    assert (Hclosed : forall x, In x (static_vertices g (Z.of_nat T)) -> ~ In x R ->
              has_successor_in (static_edges g (Z.of_nat T)) R x = false).
    { apply attractor_loop_closed. apply Nat.lt_succ_r, List.filter_length_le. }
    intros [Ht Hr]. remember (T - t)%nat as k eqn:Hk.
    revert v t Ht Hk Hr. induction k as [|k IH]; intros v t Ht Hk Hr.
    + apply attractor_loop_incl. apply expanded_target_set_In.
      simpl in Hr. apply andb_true_iff in Hr as [Hn Hr].
      split; [lia|]. split; [apply Nat.ltb_lt, Hn | exact Hr].
    + simpl in Hr. apply andb_true_iff in Hr as [Hn Hr].
      apply existsb_exists in Hr as (w & Hw & Hr).
      assert (HwR : In (w, S t) R) by (apply (IH w (S t)); [lia | lia | exact Hr]).
      destruct (smem (v, t) R) eqn:Hm; [apply smem_In, Hm|].
      assert (Hnot : ~ In (v, t) R) by (rewrite <- smem_In; congruence).
      exfalso.
      assert (Hs : has_successor_in (static_edges g (Z.of_nat T)) R (v, t) = true).
      { apply static_successor_spec. exists w. split; [lia|]. split; assumption. }
      rewrite Hclosed in Hs; [discriminate | | exact Hnot].
      apply static_vertices_In. split; [apply Nat.ltb_lt, Hn | exact Ht].
Qed.

(** C3 (amended): on a game where player 0 owns every vertex (as in the
    counterexample [game_late_loop]), the expansion solver's winning set
    for bound [T] is exactly the set of vertices from which some sequence
    of exactly [T] moves, the [i]-th available at time [i], ends in a
    target vertex at time [T].  Reaching a target at time [T] does not
    imply reaching one at time [T + 1], so the set is not monotone in
    [T]. *)
Theorem C3_expansion_exact_reach g o (T : nat)
  (Hpl0 : forall v, (v < num_vertices g)%nat -> player_of g v = 0) v :
  In v (expansion_winning_set g o (Z.of_nat T)) <-> reach_exact g o T v 0 = true.
Proof.
  unfold expansion_winning_set. rewrite filter_In, in_vertex_list, andb_true_iff,
    !smem_In, static_vertices_In, static_attractor_spec, Nat.sub_0_r.
  split.
  - intros (_ & _ & _ & Hr). exact Hr.
  - intros Hr. assert (Hn : (v < num_vertices g)%nat).
    { destruct T; simpl in Hr; apply andb_true_iff in Hr as [Hn _]; apply Nat.ltb_lt, Hn. }
    repeat split; try lia. exact Hr.
Qed.

Lemma C3_expansion_exact_reach_witness :
  (forall v, (v < num_vertices game_late_loop)%nat -> player_of game_late_loop v = 0) /\
  (In 0%nat (expansion_winning_set game_late_loop (objective_of game_late_loop) (Z.of_nat 2)) <->
   reach_exact game_late_loop (objective_of game_late_loop) 2 0 0 = true).
Proof.
  assert (H : forall v, (v < num_vertices game_late_loop)%nat -> player_of game_late_loop v = 0).
  { intros v Hv. unfold num_vertices in Hv; simpl in Hv.
    destruct v as [|[|v]]; [reflexivity | reflexivity | lia]. }
  split; [exact H|]. apply C3_expansion_exact_reach. exact H.
Defined.

(* ================================================================== *)
(** * Further properties of the code *)

(* ------------------------------------------------------------------ *)
(** ** The value of a term *)

Lemma evaluate_term_fold t e :
  evaluate_term t e = map_fold (term_step e) (constant_ t) (coefficients_ t).
Proof. reflexivity. Qed.

Lemma term_step_add e i x r : term_step e i x r = r + term_contrib e i x.
Proof. unfold term_step, term_contrib. destruct (e !! i); lia. Qed.

Lemma term_step_comm e j1 j2 z1 z2 y :
  term_step e j1 z1 (term_step e j2 z2 y) = term_step e j2 z2 (term_step e j1 z1 y).
Proof. rewrite !term_step_add. lia. Qed.

Lemma fold_term_step_insert e b i x (m : gmap string Z) :
  m !! i = None ->
  map_fold (term_step e) b (<[i:=x]> m) = term_step e i x (map_fold (term_step e) b m).
Proof. intros Hi. apply map_fold_insert_L; [|exact Hi]. intros. apply term_step_comm. Qed.

Lemma fold_term_step_shift e b (m : gmap string Z) :
  map_fold (term_step e) b m = b + map_fold (term_step e) 0 m.
Proof.
  induction m as [|i x m Hi IH] using map_ind.
  - rewrite !map_fold_empty. lia.
  - rewrite !fold_term_step_insert by exact Hi. rewrite !term_step_add, IH. lia.
Qed.

Lemma fold_term_step_delete e b i y (m : gmap string Z) :
  m !! i = Some y ->
  map_fold (term_step e) b m = term_step e i y (map_fold (term_step e) b (delete i m)).
Proof.
  intros Hi. rewrite <- (insert_delete_id m i y) at 1 by exact Hi.
  apply fold_term_step_insert, lookup_delete_eq.
Qed.

Lemma fold_term_step_insert_any e b i x (m : gmap string Z) :
  map_fold (term_step e) b (<[i:=x]> m) =
  term_contrib e i x + map_fold (term_step e) b (delete i m).
Proof.
  rewrite <- insert_delete_eq, fold_term_step_insert by apply lookup_delete_eq.
  rewrite term_step_add. lia.
Qed.

Lemma term_contrib_add e i x y :
  term_contrib e i (x + y) = term_contrib e i x + term_contrib e i y.
Proof. unfold term_contrib. destruct (e !! i); lia. Qed.

Lemma term_contrib_mul e i x k : term_contrib e i (x * k) = term_contrib e i x * k.
Proof. unfold term_contrib. destruct (e !! i); lia. Qed.

Lemma evaluate_term_split t e :
  evaluate_term t e = constant_ t + map_fold (term_step e) 0 (coefficients_ t).
Proof. rewrite evaluate_term_fold. apply fold_term_step_shift. Qed.

Lemma fold_term_plus e (C1 C2 : gmap string Z) :
  map_fold (term_step e) 0
    (map_fold (fun var coeff (acc : gmap string Z) =>
                 <[ var := default 0 (acc !! var) + coeff ]> acc) C1 C2) =
  map_fold (term_step e) 0 C1 + map_fold (term_step e) 0 C2.
Proof.
  apply (map_fold_weak_ind
           (fun (r m : gmap string Z) =>
              map_fold (term_step e) 0 r =
              map_fold (term_step e) 0 C1 + map_fold (term_step e) 0 m)).
  - rewrite map_fold_empty. lia.
  - intros i x m r Hi IH.
    rewrite (fold_term_step_insert e 0 i x m Hi).
    rewrite fold_term_step_insert_any, term_step_add, term_contrib_add.
    destruct (r !! i) as [y|] eqn:Hr; simpl.
    + rewrite (fold_term_step_delete e 0 i y r Hr), term_step_add in IH. lia.
    + rewrite delete_id by exact Hr. unfold term_contrib at 1.
      destruct (e !! i); lia.
Qed.

Lemma fold_term_mult e k (m : gmap string Z) :
  map_fold (term_step e) 0 ((fun coeff => coeff * k) <$> m) =
  map_fold (term_step e) 0 m * k.
Proof.
  induction m as [|i x m Hi IH] using map_ind.
  - rewrite fmap_empty, !map_fold_empty. lia.
  - rewrite fmap_insert, !fold_term_step_insert
      by (try rewrite lookup_fmap, Hi; reflexivity).
    rewrite (fold_term_step_insert e 0 i x m Hi), !term_step_add, term_contrib_mul, IH.
    ring.
Qed.

Lemma fold_term_step_frame e x n b (m : gmap string Z) :
  m !! x = None ->
  map_fold (term_step (<[x:=n]> e)) b m = map_fold (term_step e) b m.
Proof.
  induction m as [|i y m Hi IH] using map_ind; intros Hx.
  - rewrite !map_fold_empty. reflexivity.
  - assert (Hne : i <> x) by (intros ->; rewrite lookup_insert_eq in Hx; discriminate).
    rewrite lookup_insert_ne in Hx by congruence.
    rewrite !fold_term_step_insert by exact Hi. rewrite IH by exact Hx.
    unfold term_step. rewrite lookup_insert_ne by congruence. reflexivity.
Qed.

Lemma term_value_plus t1 t2 e :
  evaluate_term (term_plus t1 t2) e = evaluate_term t1 e + evaluate_term t2 e.
Proof.
  rewrite !evaluate_term_split. unfold term_plus; simpl.
  rewrite fold_term_plus. lia.
Qed.

Lemma term_value_mult t k e :
  evaluate_term (term_mult t k) e = evaluate_term t e * k.
Proof.
  rewrite !evaluate_term_split. unfold term_mult; simpl.
  rewrite fold_term_mult. lia.
Qed.

Lemma term_value_var_coeff x c e :
  evaluate_term (term_var_coeff x c) e = term_contrib e x c.
Proof.
  rewrite evaluate_term_split. unfold term_var_coeff; simpl.
  rewrite <- insert_empty, fold_term_step_insert by apply lookup_empty.
  rewrite map_fold_empty, term_step_add. lia.
Qed.

Lemma term_value_var x e : evaluate_term (term_var x) e = term_contrib e x 1.
Proof. apply (term_value_var_coeff x 1 e). Qed.

Lemma term_value_const c e : evaluate_term (term_const c) e = c.
Proof. reflexivity. Qed.

Lemma term_value_frame t x n e :
  term_mentions x t = false ->
  evaluate_term t (<[x:=n]> e) = evaluate_term t e.
Proof.
  unfold term_mentions. intros H. apply bool_decide_eq_false in H.
  rewrite !evaluate_term_fold. apply fold_term_step_frame.
  destruct (coefficients_ t !! x); [exfalso; apply H; eexists; reflexivity | reflexivity].
Qed.

(** [operator+] adds values: [(t1 + t2)(e) = t1(e) + t2(e)]. *)
Theorem evaluate_term_plus_additive t1 t2 e :
  evaluate_term (term_plus t1 t2) e = evaluate_term t1 e + evaluate_term t2 e.
Proof. apply term_value_plus. Qed.

(** [operator*] scales values: [(t * k)(e) = t(e) * k]. *)
Theorem evaluate_term_mult_scales t k e :
  evaluate_term (term_mult t k) e = evaluate_term t e * k.
Proof. apply term_value_mult. Qed.

(* ------------------------------------------------------------------ *)
(** ** The algebra of terms *)

Lemma term_ext (a b : PresburgerTerm) :
  (forall var, coefficients_ a !! var = coefficients_ b !! var) ->
  constant_ a = constant_ b -> a = b.
Proof.
  destruct a as [ca ka], b as [cb kb]; simpl. intros Hc ->.
  f_equal. apply map_eq, Hc.
Qed.

Lemma term_mult_lookup t k var :
  coefficients_ (term_mult t k) !! var = (fun c => c * k) <$> coefficients_ t !! var.
Proof. unfold term_mult; simpl. apply lookup_fmap. Qed.

(** [operator+] is commutative, and [PresburgerTerm(0)] is its unit on
    both sides: the results are equal as stored terms, not only as
    values. *)
Theorem term_plus_comm_unit t1 t2 t :
  term_plus t1 t2 = term_plus t2 t1 /\
  term_plus t (term_const 0) = t /\
  term_plus (term_const 0) t = t.
Proof.
  split; [|split]; apply term_ext; intros; rewrite ?term_plus_lookup; simpl; try lia.
  - destruct (coefficients_ t1 !! var), (coefficients_ t2 !! var); simpl;
      try f_equal; lia.
  - rewrite lookup_empty. destruct (coefficients_ t !! var); simpl; try f_equal; lia.
  - rewrite lookup_empty. destruct (coefficients_ t !! var); simpl; try f_equal; lia.
Qed.

(** [operator+] is associative as an operation on stored terms. *)
Theorem term_plus_assoc t1 t2 t3 :
  term_plus (term_plus t1 t2) t3 = term_plus t1 (term_plus t2 t3).
Proof.
  apply term_ext; intros; rewrite ?term_plus_lookup; simpl; [|lia].
  destruct (coefficients_ t1 !! var), (coefficients_ t2 !! var),
    (coefficients_ t3 !! var); simpl; try f_equal; lia.
Qed.

(** [operator*] composes ([(t * a) * b = t * (a * b)]), has [1] as unit
    and distributes over [operator+], all as stored terms. *)
Theorem term_mult_compose_distrib t t1 t2 a b :
  term_mult (term_mult t a) b = term_mult t (a * b) /\
  term_mult t 1 = t /\
  term_mult (term_plus t1 t2) b = term_plus (term_mult t1 b) (term_mult t2 b).
Proof.
  split; [|split]; apply term_ext; intros.
  - rewrite !term_mult_lookup. destruct (coefficients_ t !! var); simpl;
      first [reflexivity | f_equal; ring].
  - simpl. ring.
  - rewrite term_mult_lookup. destruct (coefficients_ t !! var); simpl;
      first [reflexivity | f_equal; ring].
  - simpl. ring.
  - rewrite term_plus_lookup, !term_mult_lookup, term_plus_lookup.
    destruct (coefficients_ t1 !! var), (coefficients_ t2 !! var); simpl;
      first [reflexivity | f_equal; ring].
  - simpl. ring.
Qed.

(* ------------------------------------------------------------------ *)
(** ** Formula evaluation *)

(** [AND] is true exactly when every child is true (so an empty [AND] is
    true), and [OR] is false exactly when every child is false (so an
    empty [OR] is false); a child that goes wrong is not skipped. *)
Theorem evaluate_and_or_children e cs :
  (evaluate e (AND cs) = Some true <-> Forall (fun c => evaluate e c = Some true) cs) /\
  (evaluate e (OR cs) = Some false <-> Forall (fun c => evaluate e c = Some false) cs).
Proof.
  induction cs as [|c cs [IHa IHo]].
  - split; (split; [constructor | reflexivity]).
  - simpl in IHa, IHo |- *. rewrite !Forall_cons, <- IHa, <- IHo.
    destruct (evaluate e c) as [[]|]; split; split;
      try (intros [H _]; discriminate H); try (intros H; discriminate H);
      try tauto.
Qed.

Lemma exists_loop_ext (b1 b2 : Z -> option bool) fuel :
  (forall v, b1 v = b2 v) -> forall val, exists_loop b1 fuel val = exists_loop b2 fuel val.
Proof.
  intros Hb. induction fuel as [|fuel IH]; intros val; simpl; [reflexivity|].
  rewrite Hb. destruct (b2 val) as [[]|]; auto.
Qed.

Lemma evaluate_frame_gen x n (f : PresburgerFormula) :
  forall e, references_var x f = false ->
  evaluate (<[x:=n]> e) f = evaluate e f.
Proof.
  induction f as [f Hand Hor Hnot Hex|cs IH|cs IH|c IH|y c IH]
    using PresburgerFormula_nested_ind; intros e Hf.
  - destruct f; simpl in *;
      try (exfalso; eapply Hand; reflexivity); try (exfalso; eapply Hor; reflexivity);
      try (exfalso; eapply Hnot; reflexivity); try (exfalso; eapply Hex; reflexivity);
      repeat match goal with
             | H : (_ || _)%bool = false |- _ => apply orb_false_iff in H as [? ?]
             end;
      rewrite ?term_value_frame by assumption; reflexivity.
  - simpl in Hf |- *. induction IH as [|c cs Hc Hcs IHcs]; [reflexivity|].
    simpl in Hf. apply orb_false_iff in Hf as [Hc' Hcs'].
    rewrite (Hc e Hc'). destruct (evaluate e c) as [[]|]; auto.
  - simpl in Hf |- *. induction IH as [|c cs Hc Hcs IHcs]; [reflexivity|].
    simpl in Hf. apply orb_false_iff in Hf as [Hc' Hcs'].
    rewrite (Hc e Hc'). destruct (evaluate e c) as [[]|]; auto.
  - simpl in *. rewrite (IH e Hf). reflexivity.
  - cbn [evaluate]. apply exists_loop_ext. intros val. simpl in Hf.
    destruct (decide (y = x)) as [->|Hne].
    + rewrite insert_insert_eq. reflexivity.
    + rewrite bool_decide_false in Hf by exact Hne.
      rewrite insert_insert_ne by exact Hne. apply IH, Hf.
Qed.

(** A variable that a formula does not reference (free) can be bound to
    anything without changing the result of [evaluate]; in particular
    the binding of [time] only matters to constraints that mention it. *)
Theorem evaluate_unreferenced_var x n e f
  (Hf : references_var x f = false) :
  evaluate (<[x:=n]> e) f = evaluate e f.
Proof. apply evaluate_frame_gen, Hf. Qed.

Lemma evaluate_unreferenced_var_witness :
  references_var "k" (time_eq 3) = false /\
  evaluate (<["k":=7]> {[ "time" := 3 ]}) (time_eq 3) = evaluate {[ "time" := 3 ]} (time_eq 3).
Proof.
  split; [reflexivity|]. apply evaluate_unreferenced_var. reflexivity.
Defined.

Lemma exists_loop_total (p : Z -> bool) fuel val :
  exists b, exists_loop (fun v => Some (p v)) fuel val = Some b.
Proof.
  revert val. induction fuel as [|fuel IH]; intros val; simpl; [eauto|].
  destruct (p val); eauto.
Qed.

(** With the search bound [X_MAX = 10], [exists k: time == 2*k + 1] holds
    exactly for the odd times from 1 to 21: larger odd times are rejected
    although a witness [k] exists. *)
Theorem exists_odd_time_window (time : Z) :
  evaluate {[ "time" := time ]}
    (EXISTS "k" (EQUAL (term_var "time") (term_plus (term_var_coeff "k" 2) (term_const 1))))
  = Some (Z.odd time && (1 <=? time) && (time <=? 21)).
Proof.
  cbn [evaluate].
  set (p := fun val => time =? val * 2 + 1).
  rewrite (exists_loop_ext _ (fun val => Some (p val))).
  2: { intros val. unfold p. rewrite term_value_plus, term_value_var, term_value_var_coeff,
         term_value_const. unfold term_contrib.
       rewrite lookup_insert_eq, lookup_insert_ne, lookup_singleton_eq by discriminate.
       f_equal. f_equal; lia. }
  destruct (exists_loop_total p (S (Z.to_nat X_MAX)) 0) as [b Hb]. rewrite Hb. f_equal.
  assert (Hiff := exists_loop_spec (fun val => Some (p val)) (S (Z.to_nat X_MAX)) 0
                    ltac:(intros; discriminate)).
  rewrite Hb in Hiff. unfold X_MAX in Hiff. simpl in Hiff.
  destruct b.
  - symmetry. destruct (proj1 Hiff eq_refl) as (k & Hk & Hp). unfold p in Hp.
    injection Hp as Hp. apply Z.eqb_eq in Hp. subst time.
    rewrite !andb_true_iff, Z.leb_le, Z.leb_le. split; [split|]; try lia.
    apply Z.odd_spec. exists k. lia.
  - symmetry. apply not_true_is_false. intros H.
    rewrite !andb_true_iff, Z.leb_le, Z.leb_le in H. destruct H as [[Ho H1] H2].
    apply Z.odd_spec in Ho as [m ->].
    assert (Hs : Some false = Some true) by (apply Hiff; exists m; unfold p;
      split; [simpl; lia | f_equal; apply Z.eqb_eq; lia]).
    discriminate Hs.
Qed.

(* ------------------------------------------------------------------ *)
(** ** Available moves and the static graph *)

(** [get_available_moves] lists [w] exactly when some edge [v -> w] has
    no constraint, or a constraint that evaluates to true with [time]
    bound (on runs of the program that return; a [%] by zero crashes
    the real program). *)
Theorem available_moves_iff g v time w :
  In w (get_available_moves g v time) <->
  exists e, In e (edges_ g) /\ source e = v /\ target_v e = w /\
    (constraint e = None \/
     exists f, constraint e = Some f /\ evaluate {[ "time" := time ]} f = Some true).
Proof.
  rewrite available_moves_In. unfold is_edge_constraint_satisfied.
  split; intros (e & He & Hs & Ht & Hc); exists e; repeat (split; [assumption|]).
  - destruct (constraint e) as [f|]; [right | left; reflexivity].
    exists f. split; [reflexivity|].
    destruct (evaluate _ f) as [[]|]; congruence.
  - destruct Hc as [-> | (f & -> & Hf)]; [reflexivity | rewrite Hf; reflexivity].
Qed.

Lemma static_edges_In_gen g (T : nat) u t w t' :
  In ((u, t), (w, t')) (static_edges g (Z.of_nat T)) <->
  t' = S t /\ (t < T)%nat /\ In w (get_available_moves g u (Z.of_nat t)).
Proof.
  unfold static_edges. rewrite Nat2Z.id, in_flat_map. split.
  - intros (e & He & Hin). apply in_map_iff in Hin as (t0 & [= Hs Ht Hw Ht'] & Hin).
    apply filter_In in Hin as [Hin Hsat]. apply in_seq in Hin. subst.
    split; [reflexivity|]. split; [lia|].
    apply available_moves_In. exists e. repeat split; assumption.
  - intros (-> & Ht & Hw). apply available_moves_In in Hw as (e & He & Hs & Hw & Hsat).
    exists e. split; [exact He|]. apply in_map_iff. exists t.
    rewrite Hs, Hw. split; [reflexivity|].
    apply filter_In. split; [apply in_seq; lia | exact Hsat].
Qed.

(** [expand_temporal_graph] adds the static edge [(u, t) -> (w, t')]
    exactly when [t' = t + 1], [t < max_time] and [w] is an available move
    of [u] at time [t]: static edges only go one step forward in time. *)
Theorem expand_temporal_graph_edges g (T : nat) u t w t' :
  In ((u, t), (w, t')) (static_edges g (Z.of_nat T)) <->
  t' = S t /\ (t < T)%nat /\ In w (get_available_moves g u (Z.of_nat t)).
Proof. apply static_edges_In_gen. Qed.

(* ------------------------------------------------------------------ *)
(** ** The [while (changed)] loop of [compute_static_attractor] *)

Lemma attractor_step_decreases svs sedges W y ys :
  List.filter (fun v => negb (smem v W) && has_successor_in sedges W v) svs = y :: ys ->
  (length (List.filter (fun v => negb (smem v (W ++ y :: ys))) svs)
   < length (List.filter (fun v => negb (smem v W)) svs))%nat.
Proof.
  intros F.
  assert (Hy : In y (List.filter
                       (fun v => negb (smem v W) && has_successor_in sedges W v) svs))
    by (rewrite F; left; reflexivity).
  apply filter_In in Hy as [Hy Hc]. apply andb_true_iff in Hc as [Hc _].
  apply filter_length_lt.
  - intros x _ H. apply negb_true_iff in H. apply negb_true_iff.
    destruct (smem x W) eqn:Hm; [|reflexivity].
    apply smem_In in Hm. rewrite <- H. symmetry. apply smem_In, in_or_app. left. exact Hm.
  - exists y. split; [exact Hy|]. split; [exact Hc|].
    apply negb_false_iff, smem_In, in_or_app. right. left. reflexivity.
Qed.

Lemma attractor_loop_fuel_irrelevant svs sedges f1 :
  forall f2 W,
  (length (List.filter (fun v => negb (smem v W)) svs) < f1)%nat -> (f1 <= f2)%nat ->
  attractor_loop f1 svs sedges W = attractor_loop f2 svs sedges W.
Proof.
  induction f1 as [|f1 IH]; intros f2 W Hm Hle; [lia|].
  destruct f2 as [|f2]; [lia|]. simpl.
  destruct (List.filter (fun v => negb (smem v W) && has_successor_in sedges W v) svs)
    as [|y ys] eqn:F; [reflexivity|].
  apply IH; [|lia]. apply attractor_step_decreases in F. lia.
Qed.

(** Each sweep of the loop that continues adds a static vertex, so the
    loop stops within [|static vertices| + 1] sweeps: running it with any
    larger number of sweeps gives the same attractor. *)
Theorem static_attractor_sweeps_enough svs sedges W fuel
  (Hfuel : (length svs < fuel)%nat) :
  attractor_loop fuel svs sedges W = compute_static_attractor svs sedges W.
Proof.
  unfold compute_static_attractor. symmetry.
  apply attractor_loop_fuel_irrelevant; [|lia].
  pose proof (List.filter_length_le (fun v => negb (smem v W)) svs). lia.
Qed.

Lemma static_attractor_sweeps_enough_witness :
  (length (static_vertices game_S1 1) < 10)%nat /\
  attractor_loop 10 (static_vertices game_S1 1) (static_edges game_S1 1)
    (create_expanded_target_set game_S1 (objective_of game_S1) 1) =
  compute_static_attractor (static_vertices game_S1 1) (static_edges game_S1 1)
    (create_expanded_target_set game_S1 (objective_of game_S1) 1).
Proof.
  split; [vm_compute; lia|]. apply static_attractor_sweeps_enough. vm_compute. lia.
Defined.

(* ------------------------------------------------------------------ *)
(** ** The two solvers compared *)

Lemma expansion_winning_reach g o (T : nat) v :
  In v (expansion_winning_set g o (Z.of_nat T)) <-> reach_exact g o T v 0 = true.
Proof.
  unfold expansion_winning_set. rewrite filter_In, in_vertex_list, andb_true_iff,
    !smem_In, static_vertices_In, static_attractor_spec, Nat.sub_0_r.
  split.
  - intros (_ & _ & _ & Hr). exact Hr.
  - intros Hr. assert (Hn : (v < num_vertices g)%nat).
    { destruct T; simpl in Hr; apply andb_true_iff in Hr as [Hn _]; apply Nat.ltb_lt, Hn. }
    repeat split; try lia. exact Hr.
Qed.

Lemma iterate_reach_player0 g o (T : nat)
  (Hpl0 : forall v, (v < num_vertices g)%nat -> player_of g v = 0) :
  forall k (A : nat -> Prop), (k <= T)%nat ->
  (forall w, A w <-> reach_exact g o (T - k) w k = true) ->
  forall v, spec_iterate g k A v <-> reach_exact g o T v 0 = true.
Proof.
  induction k as [|k IH]; intros A Hk HA v; simpl.
  - rewrite HA, Nat.sub_0_r. reflexivity.
  - apply IH; [lia|]. intros w. unfold spec_next.
    replace (T - k)%nat with (S (T - S k)) by lia. simpl.
    rewrite andb_true_iff, Nat.ltb_lt, existsb_exists. split.
    + intros (Hw & _ & H0 & _). split; [exact Hw|].
      destruct (H0 (Hpl0 w Hw)) as (u & Hu & Ha). exists u. split; [exact Hu | apply HA, Ha].
    + intros [Hw (u & Hu & Hr)]. split; [exact Hw|]. split.
      { intros Hnil. rewrite Hnil in Hu. destruct Hu. }
      split.
      * intros _. exists u. split; [exact Hu | apply HA, Hr].
      * intros H1. rewrite (Hpl0 w Hw) in H1. discriminate H1.
Qed.

Lemma backward_reach_player0 g o (T : nat)
  (Hpl0 : forall v, (v < num_vertices g)%nat -> player_of g v = 0) v :
  In v (compute_backwards_temporal_attractor g o (Z.of_nat T)) <->
  reach_exact g o T v 0 = true.
Proof.
  unfold compute_backwards_temporal_attractor. rewrite Nat2Z.id.
  rewrite (backward_loop_spec g T _ (fun w => (w < num_vertices g)%nat /\ is_target o w = true)).
  - apply iterate_reach_player0; [exact Hpl0 | lia |].
    intros w. rewrite Nat.sub_diag. simpl. rewrite andb_true_iff, Nat.ltb_lt. reflexivity.
  - intros w Hw. left. apply Hpl0, Hw.
  - intros w. unfold initial_attractor. rewrite filter_In, in_vertex_list. tauto.
Qed.

(** When player 0 owns every vertex, the backward attractor and the
    expansion solver return the same winning set for every bound [T]:
    the vertices with a sequence of exactly [T] moves, the [i]-th
    available at time [i], ending in a target. *)
Theorem solvers_agree_player0_games g o (T : nat)
  (Hpl0 : forall v, (v < num_vertices g)%nat -> player_of g v = 0) v :
  (In v (compute_backwards_temporal_attractor g o (Z.of_nat T)) <->
   In v (expansion_winning_set g o (Z.of_nat T))) /\
  (In v (expansion_winning_set g o (Z.of_nat T)) <-> reach_exact g o T v 0 = true).
Proof.
  rewrite backward_reach_player0 by exact Hpl0. rewrite expansion_winning_reach. tauto.
Qed.

Lemma solvers_agree_player0_games_witness :
  (forall v, (v < num_vertices game_S1)%nat -> player_of game_S1 v = 0) /\
  ((In 0%nat (compute_backwards_temporal_attractor game_S1 (objective_of game_S1) (Z.of_nat 1)) <->
    In 0%nat (expansion_winning_set game_S1 (objective_of game_S1) (Z.of_nat 1))) /\
   (In 0%nat (expansion_winning_set game_S1 (objective_of game_S1) (Z.of_nat 1)) <->
    reach_exact game_S1 (objective_of game_S1) 1 0 0 = true)).
Proof.
  assert (H : forall v, (v < num_vertices game_S1)%nat -> player_of game_S1 v = 0).
  { intros v Hv. unfold num_vertices in Hv; simpl in Hv.
    destruct v as [|[|v]]; [reflexivity | reflexivity | lia]. }
  split; [exact H|]. apply solvers_agree_player0_games. exact H.
Defined.

(** For a negative bound the backward solver runs no iteration and
    returns the targets, while the expansion solver builds an empty static
    graph and returns no vertex. *)
Theorem negative_bound_solvers g o (T : Z) (HT : T < 0) :
  compute_backwards_temporal_attractor g o T = initial_attractor g o /\
  expansion_winning_set g o T = [].
Proof.
  split.
  - unfold compute_backwards_temporal_attractor. replace (Z.to_nat T) with 0%nat by lia.
    reflexivity.
  - assert (Hs : static_vertices g T = []).
    { unfold static_vertices. replace (Z.to_nat (T + 1)) with 0%nat by lia. simpl.
      induction (vertex_list g) as [|v vs IH]; [reflexivity|]. exact IH. }
    unfold expansion_winning_set. rewrite Hs.
    destruct (List.filter _ (vertex_list g)) as [|x l] eqn:F; [reflexivity|].
    exfalso. assert (Hx : In x (x :: l)) by (left; reflexivity).
    rewrite <- F in Hx. apply filter_In in Hx as [_ Hx].
    apply andb_true_iff in Hx as [Hx _]. apply smem_In in Hx. exact Hx.
Qed.

Lemma negative_bound_solvers_witness :
  -1 < 0 /\
  compute_backwards_temporal_attractor game_S1 (objective_of game_S1) (-1) =
    initial_attractor game_S1 (objective_of game_S1) /\
  expansion_winning_set game_S1 (objective_of game_S1) (-1) = [].
Proof. split; [lia|]. apply negative_bound_solvers. lia. Defined.

(** With bound 0 both solvers return the same list: the vertices of the
    graph that are objective targets. *)
Theorem zero_bound_solvers g o :
  compute_backwards_temporal_attractor g o 0 = initial_attractor g o /\
  expansion_winning_set g o 0 = initial_attractor g o.
Proof.
  split; [reflexivity|].
  unfold initial_attractor. unfold expansion_winning_set at 1. cbv zeta.
  apply filter_ext_in. intros v Hv.
  pose proof (expansion_winning_reach g o 0 v) as H.
  change (Z.of_nat 0) with 0 in H. unfold expansion_winning_set in H. cbv zeta in H.
  rewrite filter_In in H. cbn [reach_exact] in H.
  assert (Hn : Nat.ltb v (num_vertices g) = true) by (apply Nat.ltb_lt, in_vertex_list, Hv).
  rewrite Hn in H. simpl in H.
  apply Bool.eq_true_iff_eq. split.
  - intros Hb. apply H. split; [exact Hv | exact Hb].
  - intros Ht. apply H, Ht.
Qed.

(* ------------------------------------------------------------------ *)
(** ** The solutions built by [solve] and [convert_solution_back] *)

Lemma build_solution_strategy g W :
  (forall v, In v W -> get_available_moves g v 0 <> []) ->
  forall en, In en (build_solution g W) -> winning_player en = 0 ->
  exists w, strategy en = Some w /\ In w (get_available_moves g (sol_vertex en) 0).
Proof.
  intros HW en Hen Hp. unfold build_solution in Hen.
  apply in_map_iff in Hen as (v & <- & _).
  destruct (mem v W) eqn:Hm; simpl in *; [|discriminate Hp].
  apply mem_In, HW in Hm.
  destruct (get_available_moves g v 0) as [|w ws]; [congruence|].
  exists w. split; [reflexivity | left; reflexivity].
Qed.

Lemma backward_loop_moves g k L v :
  In v (backward_loop g (S k) L) -> get_available_moves g v 0 <> [].
Proof.
  revert L. induction k as [|k IH]; intros L Hv.
  - cbn [backward_loop] in Hv. unfold backward_step in Hv. apply filter_In in Hv as [_ Hv].
    cbv beta in Hv. change (Z.of_nat 0) with 0 in Hv.
    destruct (get_available_moves g v 0); [discriminate Hv | discriminate].
  - exact (IH _ Hv).
Qed.

(** For every bound [T >= 1], each vertex that either solver declares won
    by player 0 gets a strategy, and that strategy is a move available at
    time 0 (the first one, [moves[0]]). *)
Theorem solutions_strategy_available g o (T : nat) (HT : (1 <= T)%nat) :
  (forall en, In en (solve_backward g o (Z.of_nat T)) -> winning_player en = 0 ->
     exists w, strategy en = Some w /\ In w (get_available_moves g (sol_vertex en) 0)) /\
  (forall en, In en (solve_expansion g o (Z.of_nat T)) -> winning_player en = 0 ->
     exists w, strategy en = Some w /\ In w (get_available_moves g (sol_vertex en) 0)).
Proof.
  destruct T as [|k]; [lia|]. split; apply build_solution_strategy; intros v Hv.
  - unfold compute_backwards_temporal_attractor in Hv. rewrite Nat2Z.id in Hv.
    exact (backward_loop_moves g k _ v Hv).
  - apply expansion_winning_reach in Hv. cbn [reach_exact] in Hv.
    change (Z.of_nat 0) with 0 in Hv.
    apply andb_true_iff in Hv as [_ Hv]. intros Hnil. rewrite Hnil in Hv. discriminate Hv.
Qed.

Lemma solutions_strategy_available_witness :
  (1 <= 1)%nat /\
  (forall en, In en (solve_backward game_S3 (objective_of game_S3) (Z.of_nat 1)) ->
     winning_player en = 0 ->
     exists w, strategy en = Some w /\
               In w (get_available_moves game_S3 (sol_vertex en) 0)) /\
  (forall en, In en (solve_expansion game_S3 (objective_of game_S3) (Z.of_nat 1)) ->
     winning_player en = 0 ->
     exists w, strategy en = Some w /\
               In w (get_available_moves game_S3 (sol_vertex en) 0)).
Proof. split; [lia|]. apply solutions_strategy_available. lia. Defined.

(* ------------------------------------------------------------------ *)
(** ** Objectives *)

(** For the [SAFETY] and [TIME_BOUNDED_SAFETY] kinds of
    [GGGReachabilityObjective], [has_failed] is exactly the negation of
    [is_satisfied]: every state is decided. *)
Theorem ggg_safety_decided o v t
  (Hty : type_ o = SAFETY \/ type_ o = TIME_BOUNDED_SAFETY) :
  has_failed o v t = negb (is_satisfied o v t).
Proof.
  unfold has_failed, is_satisfied.
  destruct Hty as [-> | ->]; [rewrite negb_involutive; reflexivity|].
  destruct (is_target o v); simpl; [|reflexivity].
  destruct (Z.ltb_spec (time_bound_ o) 0), (Z.leb_spec t (time_bound_ o)),
    (Z.leb_spec 0 (time_bound_ o)), (Z.ltb_spec (time_bound_ o) t); simpl;
    reflexivity || lia.
Qed.

Lemma ggg_safety_decided_witness :
  (type_ (mkObjective TIME_BOUNDED_SAFETY [0%nat] 3) = SAFETY \/
   type_ (mkObjective TIME_BOUNDED_SAFETY [0%nat] 3) = TIME_BOUNDED_SAFETY) /\
  has_failed (mkObjective TIME_BOUNDED_SAFETY [0%nat] 3) 0 5 =
    negb (is_satisfied (mkObjective TIME_BOUNDED_SAFETY [0%nat] 3) 0 5).
Proof.
  split; [right; reflexivity|]. apply ggg_safety_decided. right. reflexivity.
Defined.

(** In the older [ReachabilityObjective], [is_satisfied] and [has_failed]
    are both true exactly for a [TIME_BOUNDED_SAFETY] objective with a
    nonnegative bound, at a target vertex, at or after the bound. *)
Theorem reachability_objective_overlap o v t :
  (ReachabilityObjective.is_satisfied o v t = true /\
   ReachabilityObjective.has_failed o v t = true) <->
  (ReachabilityObjective.type_ o = TIME_BOUNDED_SAFETY /\
   ReachabilityObjective.is_target o v = true /\
   0 <= ReachabilityObjective.time_bound_ o <= t).
Proof.
  unfold ReachabilityObjective.is_satisfied, ReachabilityObjective.has_failed.
  destruct (ReachabilityObjective.type_ o), (ReachabilityObjective.is_target o v),
    (Z.leb_spec 0 (ReachabilityObjective.time_bound_ o)),
    (Z.leb_spec (ReachabilityObjective.time_bound_ o) t),
    (Z.ltb_spec (ReachabilityObjective.time_bound_ o) t); simpl; split;
    (intros [Hsat Hfail] || intros (Hty & Htg & Hlo & Hhi)); try discriminate;
    repeat split; try reflexivity; lia.
Qed.

(* ------------------------------------------------------------------ *)
(** ** Strings *)

Lemma prefix_cons a p c s :
  String.prefix (String a p) (String c s) =
  if ascii_dec a c then String.prefix p s else false.
Proof. reflexivity. Qed.

Lemma prefix_nil_l s : String.prefix "" s = true.
Proof. destruct s; reflexivity. Qed.

Lemma prefix_cons_nil a p : String.prefix (String a p) "" = false.
Proof. reflexivity. Qed.

Lemma prefix_app_self p r : String.prefix p (p +:+ r) = true.
Proof.
  induction p as [|a p IH]; [apply prefix_nil_l|].
  change (String a p +:+ r) with (String a (p +:+ r)).
  rewrite prefix_cons. destruct (ascii_dec a a); [exact IH | congruence].
Qed.

Lemma find_nil_r a p : find (String a p) "" = None.
Proof. reflexivity. Qed.

Lemma find_cons p c s :
  find p (String c s) = if String.prefix p (String c s) then Some 0%nat else S <$> find p s.
Proof. unfold find. simpl. destruct (String.prefix p (String c s)), (String.index 0 p s); reflexivity. Qed.

Lemma all_of_app p a b : all_of p (a +:+ b) = all_of p a && all_of p b.
Proof. induction a as [|c a IH]; simpl; [reflexivity|]. rewrite IH, andb_assoc. reflexivity. Qed.

Lemma all_of_impl (p q : ascii -> bool) s :
  (forall c, p c = true -> q c = true) -> all_of p s = true -> all_of q s = true.
Proof.
  intros Hpq. induction s as [|c s IH]; simpl; [reflexivity|].
  rewrite !andb_true_iff. intros [Hc Hs]. split; [apply Hpq, Hc | apply IH, Hs].
Qed.

Lemma all_of_substring p n m s :
  all_of p s = true -> all_of p (String.substring n m s) = true.
Proof.
  revert n m. induction s as [|c s IH]; intros n m Hs; destruct n as [|n], m as [|m];
    simpl in *; try reflexivity; try (apply IH; apply andb_true_iff in Hs; apply Hs).
  apply andb_true_iff in Hs as [Hc Hs]. rewrite Hc. simpl. apply IH, Hs.
Qed.

Lemma length_app a b : String.length (a +:+ b) = (String.length a + String.length b)%nat.
Proof. induction a as [|c a IH]; simpl; [reflexivity | rewrite IH; reflexivity]. Qed.

Lemma substring_full r : String.substring 0 (String.length r) r = r.
Proof. induction r as [|c r IH]; simpl; [reflexivity | rewrite IH; reflexivity]. Qed.

Lemma substring_prefix x r : String.substring 0 (String.length x) (x +:+ r) = x.
Proof. induction x as [|c x IH]; simpl; [destruct r; reflexivity | rewrite IH; reflexivity]. Qed.

Lemma substring_skip x k m r :
  String.substring (String.length x + k) m (x +:+ r) = String.substring k m r.
Proof. induction x as [|c x IH]; simpl; [reflexivity | exact IH]. Qed.

Lemma substr_from_skip x r : substr_from (String.length x) (x +:+ r) = r.
Proof.
  unfold substr_from. rewrite length_app.
  replace (String.length x + String.length r - String.length x)%nat
    with (String.length r) by lia.
  rewrite <- (Nat.add_0_r (String.length x)) at 1. rewrite substring_skip.
  apply substring_full.
Qed.

Lemma span_stop p s :
  match s with EmptyString => True | String c _ => p c = false end ->
  span p s = (EmptyString, s).
Proof. destruct s as [|c s]; simpl; [reflexivity|]. intros ->. reflexivity. Qed.

Lemma span_all p s : all_of p s = true -> span p s = (s, EmptyString).
Proof.
  induction s as [|c s IH]; simpl; [reflexivity|].
  intros H. apply andb_true_iff in H as [-> Hs]. rewrite IH by exact Hs. reflexivity.
Qed.

Lemma remove_whitespace_id s :
  all_of (fun c => negb (is_space c)) s = true -> remove_whitespace s = s.
Proof.
  induction s as [|c s IH]; simpl; [reflexivity|].
  intros H. apply andb_true_iff in H as [Hc Hs]. apply negb_true_iff in Hc.
  rewrite Hc, IH by exact Hs. reflexivity.
Qed.

Lemma remove_whitespace_clean s :
  all_of (fun c => negb (is_space c)) (remove_whitespace s) = true.
Proof.
  induction s as [|c s IH]; simpl; [reflexivity|].
  destruct (is_space c) eqn:Hc; simpl; [exact IH | rewrite Hc, IH; reflexivity].
Qed.

(** Prefix tests stop at the first character outside the class of the
    pattern. *)
Lemma prefix_stop (P : ascii -> bool) p a b :
  all_of P p = true ->
  match b with EmptyString => True | String c _ => P c = false end ->
  String.prefix p (a +:+ b) = String.prefix p a.
Proof.
  revert p. induction a as [|c a IH]; intros p Hp Hb.
  - destruct p as [|p0 p]; [rewrite !prefix_nil_l; reflexivity|].
    change ("" +:+ b) with b. rewrite prefix_cons_nil. destruct b as [|c b]; [reflexivity|].
    rewrite prefix_cons. simpl in Hp. apply andb_true_iff in Hp as [Hp0 _].
    destruct (ascii_dec p0 c) as [->|]; [congruence | reflexivity].
  - destruct p as [|p0 p]; [rewrite !prefix_nil_l; reflexivity|].
    change (String c a +:+ b) with (String c (a +:+ b)).
    rewrite !prefix_cons. simpl in Hp. apply andb_true_iff in Hp as [_ Hp].
    destruct (ascii_dec p0 c); [apply IH; assumption | reflexivity].
Qed.

(** [find] skips a prefix that does not contain the first character of
    the pattern. *)
Lemma find_skip p0 p a t :
  all_of (fun c => negb (Ascii.eqb c p0)) a = true ->
  find (String p0 p) (a +:+ t) = (fun i => String.length a + i)%nat <$> find (String p0 p) t.
Proof.
  induction a as [|c a IH]; intros Ha.
  - change ("" +:+ t) with t. destruct (find _ t); reflexivity.
  - simpl in Ha. apply andb_true_iff in Ha as [Hc Ha].
    change (String c a +:+ t) with (String c (a +:+ t)).
    change (String.length (String c a)) with (S (String.length a)).
    rewrite find_cons, prefix_cons.
    destruct (ascii_dec p0 c) as [->|].
    + rewrite Ascii.eqb_refl in Hc. discriminate Hc.
    + rewrite IH by exact Ha. destruct (find _ t); reflexivity.
Qed.

(** An occurrence of a pattern whose characters all lie in a class does
    not cross into a suffix that starts outside the class. *)
Lemma find_stop (P : ascii -> bool) p0 p a b :
  all_of P (String p0 p) = true ->
  match b with EmptyString => True | String c _ => P c = false end ->
  find (String p0 p) (a +:+ b) =
  match find (String p0 p) a with
  | Some i => Some i
  | None => (fun i => String.length a + i)%nat <$> find (String p0 p) b
  end.
Proof.
  intros Hp Hb. induction a as [|c a IH].
  - change ("" +:+ b) with b. destruct (find _ b); reflexivity.
  - change (String c a +:+ b) with (String c (a +:+ b)).
    change (String.length (String c a)) with (S (String.length a)).
    rewrite !find_cons.
    change (String c (a +:+ b)) with (String c a +:+ b).
    rewrite (prefix_stop P _ _ _ Hp Hb).
    destruct (String.prefix _ (String c a)); [reflexivity|].
    rewrite IH. destruct (find _ a), (find _ b); reflexivity.
Qed.

(* ------------------------------------------------------------------ *)
(** ** Character classes *)

Lemma word_not_space c : is_word c = true -> is_space c = false.
Proof.
  unfold is_word, is_alnum, is_digit, is_space.
  destruct (Ascii.eqb_spec c "_"%char) as [->|_]; [reflexivity|]. rewrite orb_false_r.
  set (n := nat_of_ascii c).
  destruct (Nat.eqb_spec n 32), (Nat.leb_spec 9 n), (Nat.leb_spec n 13),
    (Nat.leb_spec 48 n), (Nat.leb_spec n 57), (Nat.leb_spec 65 n), (Nat.leb_spec n 90),
    (Nat.leb_spec 97 n), (Nat.leb_spec n 122); simpl; intros Hw;
    try reflexivity; try discriminate; lia.
Qed.

Lemma digit_is_word c : is_digit c = true -> is_word c = true.
Proof. unfold is_word, is_alnum. intros ->. reflexivity. Qed.

Lemma digit_is_digit_or_minus c : is_digit c = true -> is_digit_or_minus c = true.
Proof. unfold is_digit_or_minus. intros ->. reflexivity. Qed.

(** A character of a class differs from any character outside it. *)
Lemma class_neq (P : ascii -> bool) c k : P c = true -> P k = false -> Ascii.eqb c k = false.
Proof. intros Hc Hk. destruct (Ascii.eqb_spec c k) as [->|]; [congruence | reflexivity]. Qed.

Lemma all_class_avoids (P : ascii -> bool) k s :
  P k = false -> all_of P s = true -> all_of (fun c => negb (Ascii.eqb c k)) s = true.
Proof.
  intros Hk. apply all_of_impl. intros c Hc. rewrite (class_neq P c k Hc Hk). reflexivity.
Qed.

(* ------------------------------------------------------------------ *)
(** ** [std::stoi] on decimal literals *)

Lemma digits_value_acc_nonneg acc s :
  all_of is_digit s = true -> 0 <= acc -> 0 <= digits_value_acc acc s.
Proof.
  revert acc. induction s as [|c s IH]; intros acc Hs Hacc; simpl; [exact Hacc|].
  apply andb_true_iff in Hs as [Hc Hs]. apply IH; [exact Hs|].
  unfold is_digit in Hc. apply andb_true_iff in Hc as [Hc _]. apply Nat.leb_le in Hc. lia.
Qed.

(** [std::stoi] reads back a nonempty string of decimal digits whose
    value fits in an [int]. *)
Lemma stoi_digits d :
  d <> EmptyString -> all_of is_digit d = true -> digits_value d <= INT_MAX ->
  stoi d = Some (digits_value d).
Proof.
  intros Hne Hd Hmax. destruct d as [|c d']; [congruence|].
  assert (Hc : is_digit c = true) by (simpl in Hd; apply andb_true_iff in Hd; apply Hd).
  unfold stoi. rewrite (span_stop is_space (String c d'))
    by (apply word_not_space, digit_is_word, Hc).
  cbn [snd]. cbv beta iota zeta.
  assert (Hm : Ascii.eqb c "-"%char = false) by (apply (class_neq is_digit); [exact Hc | reflexivity]).
  assert (Hp : Ascii.eqb c "+"%char = false) by (apply (class_neq is_digit); [exact Hc | reflexivity]).
  rewrite Hm, Hp. cbv beta iota zeta. rewrite (span_all is_digit _ Hd). cbn [fst].
  pose proof (digits_value_acc_nonneg 0 _ Hd ltac:(lia)) as Hnn.
  unfold digits_value in *.
  replace ((INT_MIN <=? digits_value_acc 0 (String c d')) &&
           (digits_value_acc 0 (String c d') <=? INT_MAX)) with true
    by (symmetry; apply andb_true_iff; split; apply Z.leb_le; unfold INT_MIN in *; lia).
  reflexivity.
Qed.

Lemma append_nil_r s : s +:+ "" = s.
Proof. induction s as [|c s IH]; [reflexivity | exact (f_equal (String c) IH)]. Qed.

Lemma append_assoc_str x y r : x +:+ (y +:+ r) = (x +:+ y) +:+ r.
Proof. induction x as [|c x IH]; [reflexivity | exact (f_equal (String c) IH)]. Qed.

Lemma substr_from_skip2 x y r n :
  n = (String.length x + String.length y)%nat -> substr_from n (x +:+ y +:+ r) = r.
Proof. intros ->. rewrite <- length_app, append_assoc_str. apply substr_from_skip. Qed.

Lemma find_absent p0 p s :
  all_of (fun c => negb (Ascii.eqb c p0)) s = true -> find (String p0 p) s = None.
Proof.
  intros Hs. pose proof (find_skip p0 p s "" Hs) as E.
  rewrite append_nil_r in E. rewrite E. reflexivity.
Qed.

Lemma find_self p0 p r : find (String p0 p) (String p0 p +:+ r) = Some 0%nat.
Proof.
  change (String p0 p +:+ r) with (String p0 (p +:+ r)).
  rewrite find_cons. change (String p0 (p +:+ r)) with (String p0 p +:+ r).
  rewrite prefix_app_self. reflexivity.
Qed.

Lemma find_after_word p0 p x t :
  all_of is_word x = true -> is_word p0 = false ->
  find (String p0 p) (x +:+ t) = (fun i => String.length x + i)%nat <$> find (String p0 p) t.
Proof. intros Hx Hp0. apply find_skip, (all_class_avoids is_word); assumption. Qed.

Lemma find_mod_after_word x t :
  all_of is_word x = true -> find "mod" x = None ->
  match t with EmptyString => True | String c _ => is_word c = false end ->
  find "mod" (x +:+ t) = (fun i => String.length x + i)%nat <$> find "mod" t.
Proof.
  intros Hx Hm Ht. rewrite (find_stop is_word) by (assumption || reflexivity).
  rewrite Hm. reflexivity.
Qed.

Lemma digits_not_space d : all_of is_digit d = true -> all_of (fun c => negb (is_space c)) d = true.
Proof.
  apply all_of_impl. intros c Hc. rewrite word_not_space by (apply digit_is_word, Hc). reflexivity.
Qed.

Lemma term_of_word x :
  all_of is_word x = true -> all_of is_digit_or_minus x = false ->
  parse_presburger_term x = Some (term_var x).
Proof. intros Hx Hxn. unfold parse_presburger_term. rewrite Hxn, Hx. reflexivity. Qed.

Lemma term_of_digits d :
  d <> EmptyString -> all_of is_digit d = true -> digits_value d <= INT_MAX ->
  parse_presburger_term d = Some (term_const (digits_value d)).
Proof.
  intros Hne Hd Hmax. unfold parse_presburger_term.
  rewrite (all_of_impl is_digit is_digit_or_minus d digit_is_digit_or_minus Hd).
  rewrite stoi_digits by assumption. reflexivity.
Qed.

Lemma term_of_other r :
  all_of is_digit_or_minus r = false -> all_of is_word r = false -> find "*" r = None ->
  parse_presburger_term r = Some (term_const 0).
Proof. intros H1 H2 H3. unfold parse_presburger_term. rewrite H1, H2, H3. reflexivity. Qed.

(** A constraint that starts with a variable name followed by a symbol
    goes past the keyword, negation and parenthesis tests to the operator
    searches. *)
Lemma parse_constraint_head x t :
  all_of is_word x = true -> all_of is_digit_or_minus x = false ->
  starts_with "exists" x = false ->
  match t with EmptyString => False | String c _ => is_word c = false end ->
  all_of (fun c => negb (is_space c)) t = true ->
  parse_constraint (x +:+ t) =
  match find "mod" (x +:+ t) with
  | Some mod_pos => parse_modulus_constraint (x +:+ t) mod_pos
  | None =>
  match find "%" (x +:+ t) with
  | Some percent_pos => parse_percent_modulus_constraint (x +:+ t) percent_pos
  | None =>
  match find_first_op comparison_ops (x +:+ t) with
  | Some (op, pos) => parse_comparison_formula (x +:+ t) op pos
  | None =>
  match find_first_op logical_ops (x +:+ t) with
  | Some (op, pos) =>
      parse_logical_formula (parse_constraint_fuel (String.length (x +:+ t))) (x +:+ t) op pos
  | None => Some true_formula
  end end end end.
Proof.
  intros Hx Hxn Hxe Ht Hts.
  destruct x as [|x0 x']; [discriminate Hxn|].
  assert (Hx0 : is_word x0 = true) by (simpl in Hx; apply andb_true_iff in Hx; apply Hx).
  assert (Hclean : remove_whitespace (String x0 x' +:+ t) = String x0 x' +:+ t).
  { apply remove_whitespace_id. rewrite all_of_app, Hts, andb_true_r.
    apply (all_of_impl is_word); [|exact Hx].
    intros c Hc. rewrite word_not_space by exact Hc. reflexivity. }
  assert (Hnw : all_of is_word (String x0 x' +:+ t) = false).
  { rewrite all_of_app. destruct t as [|t0 t']; [contradiction|].
    simpl. rewrite Ht. simpl. apply andb_false_r. }
  assert (Htrue : String.eqb (String x0 x' +:+ t) "true" = false).
  { destruct (String.eqb_spec (String x0 x' +:+ t) "true") as [He|]; [|reflexivity].
    rewrite He in Hnw. vm_compute in Hnw. discriminate Hnw. }
  assert (Hfalse : String.eqb (String x0 x' +:+ t) "false" = false).
  { destruct (String.eqb_spec (String x0 x' +:+ t) "false") as [He|]; [|reflexivity].
    rewrite He in Hnw. vm_compute in Hnw. discriminate Hnw. }
  assert (Hex : starts_with "exists" (String x0 x' +:+ t) = false).
  { unfold starts_with in *. rewrite (prefix_stop is_word); [exact Hxe | reflexivity |].
    destruct t; [contradiction | exact Ht]. }
  assert (Hhead : forall k, is_word k = false ->
            starts_with (String k EmptyString) (String x0 x' +:+ t) = false).
  { intros k Hk. unfold starts_with.
    change (String x0 x' +:+ t) with (String x0 (x' +:+ t)). rewrite prefix_cons.
    destruct (ascii_dec k x0) as [->|]; [congruence | reflexivity]. }
  unfold parse_constraint. cbn [parse_constraint_fuel].
  rewrite Hclean, Htrue, Hfalse, Hex, (Hhead "!"%char eq_refl), (Hhead "("%char eq_refl).
  reflexivity.
Qed.

(** Operators made of symbols are found where they occur between a name
    and a word. *)
Lemma find_first_op_between ops x m d :
  forallb (fun q => match q with
                    | EmptyString => false
                    | String _ _ => all_of (fun c => negb (is_word c)) q
                    end) ops = true ->
  all_of is_word x = true -> all_of is_word d = true ->
  find_first_op ops (x +:+ m +:+ d) =
  (fun '(o, i) => (o, String.length x + i)%nat) <$> find_first_op ops m.
Proof.
  intros Hops Hx Hd. induction ops as [|q ops IH]; [reflexivity|].
  simpl in Hops. apply andb_true_iff in Hops as [Hq Hops].
  destruct q as [|q0 q']; [discriminate Hq|].
  assert (Hq0 : is_word q0 = false)
    by (simpl in Hq; apply andb_true_iff in Hq as [Hq0 _]; apply negb_true_iff, Hq0).
  assert (Hfind : find (String q0 q') (x +:+ m +:+ d) =
                  (fun i => String.length x + i)%nat <$> find (String q0 q') m).
  { rewrite find_after_word by assumption.
    rewrite (find_stop (fun c => negb (is_word c))); [| exact Hq |].
    - rewrite (find_absent q0 q' d) by (apply (all_class_avoids is_word); assumption).
      destruct (find _ m); reflexivity.
    - destruct d as [|d0 d']; [exact I|]. simpl in Hd. apply andb_true_iff in Hd as [Hd0 _].
      rewrite Hd0. reflexivity. }
  cbn [find_first_op]. rewrite Hfind.
  destruct (find (String q0 q') m); [reflexivity | exact (IH Hops)].
Qed.

(** [name op digits]: the generic part of the comparison round trip. *)
Lemma parse_comparison_head x o0 op' d :
  all_of is_word x = true -> all_of is_digit_or_minus x = false ->
  find "mod" x = None -> starts_with "exists" x = false ->
  all_of (fun c => negb (is_word c) && negb (is_space c) && negb (Ascii.eqb c "%"%char))
    (String o0 op') = true ->
  find_first_op comparison_ops (String o0 op') = Some (String o0 op', 0%nat) ->
  all_of is_digit d = true ->
  parse_constraint (x +:+ String o0 op' +:+ d) =
  parse_comparison_formula (x +:+ String o0 op' +:+ d) (String o0 op') (String.length x).
Proof.
  intros Hx Hxn Hxm Hxe Hop Hfo Hd.
  assert (Hdw : all_of is_word d = true) by exact (all_of_impl _ _ _ digit_is_word Hd).
  assert (Ho0 : is_word o0 = false).
  { simpl in Hop. apply andb_true_iff in Hop as [Ho0 _].
    apply andb_true_iff in Ho0 as [Ho0 _]. apply andb_true_iff in Ho0 as [Ho0 _].
    apply negb_true_iff, Ho0. }
  rewrite parse_constraint_head by
    (try assumption; try exact Ho0;
     rewrite all_of_app, (digits_not_space d Hd), andb_true_r;
     refine (all_of_impl _ _ _ _ Hop); intros c Hc;
     apply andb_true_iff in Hc as [Hc _]; apply andb_true_iff in Hc as [_ Hc]; exact Hc).
  rewrite find_mod_after_word by (assumption || exact Ho0).
  rewrite (find_absent "m"%char "od").
  2:{ rewrite all_of_app, (all_class_avoids is_digit "m"%char d) by (reflexivity || exact Hd).
      rewrite andb_true_r. refine (all_of_impl _ _ _ _ Hop). intros c Hc.
      apply andb_true_iff in Hc as [Hc _]. apply andb_true_iff in Hc as [Hc _].
      rewrite (class_neq (fun c => negb (is_word c)) c "m"%char Hc eq_refl). reflexivity. }
  rewrite find_after_word by (assumption || reflexivity).
  rewrite (find_absent "%"%char "").
  2:{ rewrite all_of_app, (all_class_avoids is_digit "%"%char d) by (reflexivity || exact Hd).
      rewrite andb_true_r. refine (all_of_impl _ _ _ _ Hop). intros c Hc.
      apply andb_true_iff in Hc as [_ Hc]. exact Hc. }
  rewrite find_first_op_between by (reflexivity || assumption).
  rewrite Hfo. cbn. rewrite Nat.add_0_r. reflexivity.
Qed.

(** Once white space is removed, the text after ["exists"] starts with no
    white space. *)
Lemma exists_regex_cleaned s :
  exists_regex_match (remove_whitespace s) = None.
Proof.
  unfold exists_regex_match.
  destruct (String.prefix "exists" (remove_whitespace s)); [|reflexivity].
  cbv beta iota zeta.
  rewrite (span_stop is_space (substr_from 6 (remove_whitespace s))).
  - destruct (span is_word (substr_from 6 (remove_whitespace s))) as [v r2].
    destruct (span is_space r2) as [w r3]. reflexivity.
  - pose proof (all_of_substring _ 6 (String.length (remove_whitespace s) - 6) _
                  (remove_whitespace_clean s)) as Hc.
    unfold substr_from. destruct (String.substring _ _ _) as [|c r]; [exact I|].
    simpl in Hc. apply andb_true_iff in Hc as [Hc _]. apply negb_true_iff, Hc.
Qed.

(** [parse_modulus_constraint] and [parse_percent_modulus_constraint] on
    [name op digits == digits], with [op] of length [skip]. *)
Lemma parse_mod_after_digits x op m r skip :
  skip = String.length op ->
  all_of is_word x = true -> all_of is_digit_or_minus x = false ->
  m <> EmptyString -> all_of is_digit m = true -> digits_value m <= INT_MAX ->
  r <> EmptyString -> all_of is_digit r = true -> digits_value r <= INT_MAX ->
  parse_mod_after (x +:+ op +:+ m +:+ "==" +:+ r) (String.length x) skip =
  Some (modulus (term_var x) (digits_value m) (digits_value r)).
Proof.
  intros -> Hx Hxn Hm Hmd Hmv Hr Hrd Hrv. unfold parse_mod_after. cbv beta zeta.
  rewrite substring_prefix, (substr_from_skip2 x op _ _ eq_refl).
  rewrite (find_after_word "="%char "=" m) by
    (reflexivity || exact (all_of_impl _ _ _ digit_is_word Hmd)).
  rewrite find_self. cbn [fmap option_fmap option_map]. rewrite Nat.add_0_r.
  rewrite substring_prefix, (substr_from_skip2 m "==" r (String.length m + 2) eq_refl).
  rewrite term_of_word, !stoi_digits by assumption. reflexivity.
Qed.

(** [parse_constraint] removes all white space before it matches the
    regex [exists\s+(\w+)\s*:\s*(.+)], which needs white space after
    ["exists"]: every constraint that starts with ["exists"] is read as
    the formula [true], whatever its body. *)
Theorem parse_exists_always_true s :
  starts_with "exists" (remove_whitespace s) = true ->
  parse_constraint s = Some true_formula.
Proof.
  intros Hex. unfold parse_constraint. cbn [parse_constraint_fuel].
  destruct (String.eqb_spec (remove_whitespace s) "true") as [He|_];
    [rewrite He in Hex; vm_compute in Hex; discriminate Hex|].
  destruct (String.eqb_spec (remove_whitespace s) "false") as [He|_];
    [rewrite He in Hex; vm_compute in Hex; discriminate Hex|].
  rewrite Hex. unfold parse_existential_formula. rewrite exists_regex_cleaned. reflexivity.
Qed.

Lemma parse_exists_always_true_witness :
  parse_constraint "exists k: time == 2*k+1" = Some true_formula.
Proof. apply parse_exists_always_true. vm_compute. reflexivity. Defined.

(** A comparison between a variable name and a decimal literal is read
    back as the comparison node of its operator, [!=] giving the negation
    of an equality. *)
Theorem parse_comparison_roundtrip x d :
  all_of is_word x = true -> all_of is_digit_or_minus x = false ->
  find "mod" x = None -> starts_with "exists" x = false ->
  d <> EmptyString -> all_of is_digit d = true -> digits_value d <= INT_MAX ->
  let n := term_const (digits_value d) in
  parse_constraint (x +:+ ">=" +:+ d) = Some (GREATEREQUAL (term_var x) n) /\
  parse_constraint (x +:+ "<=" +:+ d) = Some (LESSEQUAL (term_var x) n) /\
  parse_constraint (x +:+ ">" +:+ d) = Some (GREATER (term_var x) n) /\
  parse_constraint (x +:+ "<" +:+ d) = Some (LESS (term_var x) n) /\
  parse_constraint (x +:+ "==" +:+ d) = Some (EQUAL (term_var x) n) /\
  parse_constraint (x +:+ "!=" +:+ d) = Some (NOT (EQUAL (term_var x) n)).
Proof.
  intros Hx Hxn Hxm Hxe Hdne Hd Hdv n.
  pose proof (term_of_word x Hx Hxn) as Hvx.
  pose proof (term_of_digits d Hdne Hd Hdv) as Hvd.
  repeat apply conj;
    (rewrite parse_comparison_head by (assumption || reflexivity);
     unfold parse_comparison_formula;
     rewrite substring_prefix, (substr_from_skip2 _ _ _ _ eq_refl), Hvx, Hvd;
     reflexivity).
Qed.

Lemma parse_comparison_roundtrip_witness :
  parse_constraint ("time" +:+ "!=" +:+ "5") = Some (NOT (EQUAL (term_var "time") (term_const 5))).
Proof.
  apply (parse_comparison_roundtrip "time" "5"); try reflexivity.
  - discriminate.
  - vm_compute. discriminate.
Defined.

(** For a name [x] made of word characters, not numeric, without ["mod"]
    and not starting with ["exists"], and a rest [r] without white space,
    ["mod"], ['%'] or ['*'] that is neither all digits and ['-'] nor all
    word characters, [x>=r] is read as [x >= 0]: the comparison operators
    are searched before [&&] and [||], and such a right-hand side becomes
    the constant 0, so [time>=2&&time<=5] loses its second conjunct and
    its bound. *)
Theorem parse_greaterequal_swallows_rest x r :
  all_of is_word x = true -> all_of is_digit_or_minus x = false ->
  find "mod" x = None -> starts_with "exists" x = false ->
  all_of (fun c => negb (is_space c)) r = true ->
  find "mod" r = None -> find "%" r = None -> find "*" r = None ->
  all_of is_digit_or_minus r = false -> all_of is_word r = false ->
  parse_constraint (x +:+ ">=" +:+ r) = Some (GREATEREQUAL (term_var x) (term_const 0)).
Proof.
  intros Hx Hxn Hxm Hxe Hr Hrm Hrp Hrs Hrd Hrw.
  rewrite parse_constraint_head by (assumption || reflexivity || (rewrite all_of_app, Hr; reflexivity)).
  rewrite find_mod_after_word by (assumption || reflexivity).
  rewrite (find_skip "m"%char "od" ">=" r eq_refl), Hrm.
  rewrite (find_after_word "%"%char "" x) by (assumption || reflexivity).
  rewrite (find_skip "%"%char "" ">=" r eq_refl), Hrp.
  assert (Hfo : find_first_op comparison_ops (x +:+ ">=" +:+ r) = Some (">=", String.length x)).
  { cbn [find_first_op comparison_ops].
    rewrite (find_after_word ">"%char "=" x) by (assumption || reflexivity).
    rewrite find_self. cbn [fmap option_fmap option_map]. rewrite Nat.add_0_r. reflexivity. }
  rewrite Hfo.
  transitivity (parse_comparison_formula (x +:+ ">=" +:+ r) ">=" (String.length x));
    [reflexivity|].
  unfold parse_comparison_formula.
  rewrite substring_prefix, (substr_from_skip2 _ _ _ _ eq_refl).
  rewrite term_of_word, term_of_other by assumption. reflexivity.
Qed.

Lemma parse_greaterequal_swallows_rest_witness :
  parse_constraint ("time" +:+ ">=" +:+ "2&&time<=5") =
  Some (GREATEREQUAL (term_var "time") (term_const 0)).
Proof. apply parse_greaterequal_swallows_rest; reflexivity. Defined.

(** For a name [x] made of word characters, not numeric, without ["mod"]
    and not starting with ["exists"], and nonempty decimal literals [m]
    and [r] within [int], [x%m==r] is read back as the modulus constraint
    [x mod m = r]. *)
Theorem parse_percent_roundtrip x m r :
  all_of is_word x = true -> all_of is_digit_or_minus x = false ->
  find "mod" x = None -> starts_with "exists" x = false ->
  m <> EmptyString -> all_of is_digit m = true -> digits_value m <= INT_MAX ->
  r <> EmptyString -> all_of is_digit r = true -> digits_value r <= INT_MAX ->
  parse_constraint (x +:+ "%" +:+ m +:+ "==" +:+ r) =
  Some (modulus (term_var x) (digits_value m) (digits_value r)).
Proof.
  intros Hx Hxn Hxm Hxe Hm Hmd Hmv Hr Hrd Hrv.
  rewrite parse_constraint_head by
    (assumption || reflexivity ||
     (rewrite !all_of_app, (digits_not_space m Hmd), (digits_not_space r Hrd); reflexivity)).
  rewrite find_mod_after_word by (assumption || reflexivity).
  rewrite (find_absent "m"%char "od").
  2:{ rewrite !all_of_app, (all_class_avoids is_digit "m"%char m), (all_class_avoids is_digit "m"%char r)
        by (reflexivity || assumption). reflexivity. }
  rewrite (find_after_word "%"%char "" x) by (assumption || reflexivity).
  rewrite find_self.
  transitivity (parse_percent_modulus_constraint (x +:+ "%" +:+ m +:+ "==" +:+ r)
                  (String.length x + 0)); [reflexivity|].
  rewrite Nat.add_0_r. apply parse_mod_after_digits; (reflexivity || assumption).
Qed.

Lemma parse_percent_roundtrip_witness :
  parse_constraint ("time" +:+ "%" +:+ "3" +:+ "==" +:+ "1") =
  Some (modulus (term_var "time") 3 1).
Proof.
  apply (parse_percent_roundtrip "time" "3" "1"); try reflexivity;
    try discriminate; vm_compute; discriminate.
Defined.
